(** * signalx: payload normalisation, signal classification and dedup window

    A shallow embedding of the in-memory core of [bot.py]
    ([safe_get], [parse_number_from_payload], [make_signal], [dedup_key],
    [handle_result]) together with the properties the specification states
    about it.

    Conventions.
    - Python [int] is [Z]; [bool] is kept apart from [int] in the value type
      but, as in Python, passes [isinstance(_, int)] and counts as 0 or 1.
    - Python [str] is [string], holding the UTF-8 bytes of the text;
      [chars] reads its code points, on which [\d], [\s] and
      [str.strip] work with the Unicode classes of CPython.
    - A [dict] with string keys is a [gmap string pyval]; a [list] is a
      [list pyval].
    - The module-level list [SEEN_KEYS] is threaded through explicitly.
    - [json.loads] and the [str()] of containers are library functions of
      Python, not of this program: they are section variables. *)

From Stdlib Require Import Ascii.
From stdpp Require Import gmap strings list fin_maps pretty.

#[local] Open Scope Z_scope.
#[local] Set Warnings "-register-all".

(** ** Python values *)

(** A payload as the feed delivers it.  [POther] stands for any value the
    program only ever observes through [bool(x)] and [str(x)] (a float, for
    instance): it records exactly these two observations. *)
Inductive pyval :=
| PNone
| PBool (b : bool)
| PInt (z : Z)
| PStr (s : string)
| PList (l : list pyval)
| PDict (d : gmap string pyval)
| POther (truthy : bool) (text : string).

(** The values for which [isinstance(c, int)] holds. *)
Inductive pyint :=
| IInt (z : Z)
| IBool (b : bool).

Definition int_val (n : pyint) : Z :=
  match n with
  | IInt z => z
  | IBool b => if b then 1 else 0
  end.

(** [str(n)] / [f"{n}"] for an [int] or a [bool]. *)
Definition int_str (n : pyint) : string :=
  match n with
  | IInt z => pretty z
  | IBool b => if b then "True" else "False"
  end.

(** ** Configuration *)

(** The entries of [CONFIG] the core reads, after [int(...)] where the code
    applies it. *)
Record config := Config {
  BIG_THRESHOLD : Z;
  DEDUP_WINDOW : Z;
  SYMBOL : string;
  TIMEFRAME : string;
  GAME : string
}.

(** The defaults of the [CONFIG.get(_, default)] calls. *)
Definition default_config : config :=
  {| BIG_THRESHOLD := 5; DEDUP_WINDOW := 200;
     SYMBOL := "WinGo"; TIMEFRAME := "30s"; GAME := "WinGo_30S" |}.

(** ** Signal classifier: [make_signal] *)

Record signal := Signal {
  decision : string;
  confidence : Z;
  meta_num : pyint;
  meta_notes : string
}.

(** [big_small = "BIG" if n >= big_threshold else "SMALL"] *)
Definition big_small (big_threshold : Z) (n : pyint) : string :=
  if big_threshold <=? int_val n then "BIG" else "SMALL".

(** [even_odd = "EVEN" if (n % 2 == 0) else "ODD"]; Python's [%] with a
    positive divisor is [Z.modulo]. *)
Definition even_odd (n : pyint) : string :=
  if int_val n mod 2 =? 0 then "EVEN" else "ODD".

(** [n in (a, b)] on integers *)
Definition in_pair (n a b : Z) : bool := (n =? a) || (n =? b).

(** The confidence heuristic: two assignments in sequence, the second
    overwriting the first. *)
Definition confidence_of (big_threshold : Z) (n : pyint) : Z :=
  let confidence := 60 in
  let confidence :=
    if in_pair (int_val n) big_threshold (big_threshold - 1) then 55 else confidence in
  let confidence :=
    if in_pair (int_val n) 0 9 then 65 else confidence in
  confidence.

(** U+2192 in the notes string, as its three UTF-8 bytes. *)
Definition arrow : string :=
  String "226"%char (String "134"%char (String "146"%char "")).

Definition make_signal (cfg : config) (n : pyint) : signal :=
  let big_threshold := BIG_THRESHOLD cfg in
  let bs := big_small big_threshold n in
  let eo := even_odd n in
  {| decision := bs +:+ " / " +:+ eo;
     confidence := confidence_of big_threshold n;
     meta_num := n;
     meta_notes := "Num=" +:+ int_str n +:+ " " +:+ arrow +:+ " " +:+ bs +:+ " & " +:+ eo |}.

(** ** Strings: code points, the [str] methods and the two regular expressions *)

(** *** UTF-8 *)

Definition byte (b : ascii) : Z := Z.of_N (N_of_ascii b).
Definition chr (n : Z) : ascii := ascii_of_N (Z.to_N n).

(** A continuation byte, 10xxxxxx. *)
Definition is_cont (b : ascii) : bool := (128 <=? byte b) && (byte b <? 192).

(** What a byte that starts no well-formed sequence is read as (the
    control character SUB); no Python text contains such a byte. *)
Definition malformed : Z := 26.

(** The code points of a text.  Sequences of one to four bytes are read
    by their bit pattern alone, so that surrogates, which a Python [str]
    may hold, are code points like the others. *)
Fixpoint chars (s : string) : list Z :=
  match s with
  | "" => []
  | String b1 s1 =>
      let x1 := byte b1 in
      if x1 <? 128 then x1 :: chars s1
      else if (192 <=? x1) && (x1 <? 224) then
        match s1 with
        | String b2 s2 =>
            if is_cont b2
            then (x1 - 192) * 64 + (byte b2 - 128) :: chars s2
            else malformed :: chars s1
        | _ => malformed :: chars s1
        end
      else if (224 <=? x1) && (x1 <? 240) then
        match s1 with
        | String b2 (String b3 s3) =>
            if is_cont b2 && is_cont b3
            then (x1 - 224) * 4096 + (byte b2 - 128) * 64 + (byte b3 - 128) :: chars s3
            else malformed :: chars s1
        | _ => malformed :: chars s1
        end
      else if (240 <=? x1) && (x1 <? 248) then
        match s1 with
        | String b2 (String b3 (String b4 s4)) =>
            if is_cont b2 && is_cont b3 && is_cont b4
            then (x1 - 240) * 262144 + (byte b2 - 128) * 4096
                 + (byte b3 - 128) * 64 + (byte b4 - 128) :: chars s4
            else malformed :: chars s1
        | _ => malformed :: chars s1
        end
      else malformed :: chars s1
  end.

(** The bytes of one code point. *)
Definition encode (c : Z) : list ascii :=
  if c <? 128 then [chr c]
  else if c <? 2048 then [chr (192 + c / 64); chr (128 + c mod 64)]
  else if c <? 65536 then
    [chr (224 + c / 4096); chr (128 + (c / 64) mod 64); chr (128 + c mod 64)]
  else
    [chr (240 + c / 262144); chr (128 + (c / 4096) mod 64);
     chr (128 + (c / 64) mod 64); chr (128 + c mod 64)].

Fixpoint of_chars (l : list Z) : string :=
  match l with
  | [] => ""
  | c :: l => foldr String (of_chars l) (encode c)
  end.

(** *** Character classes (Unicode 14.0, the tables of CPython 3.11) *)

(** The code points of the digit zero of every decimal-digit script
    (category Nd); the digits one to nine follow each of them. *)
Definition digit_zeros : list Z :=
  [ 48; 1632; 1776; 1984; 2406; 2534; 2662; 2790; 2918; 3046; 3174;
    3302; 3430; 3558; 3664; 3792; 3872; 4160; 4240; 6112; 6160; 6470;
    6608; 6784; 6800; 6992; 7088; 7232; 7248; 42528; 43216; 43264;
    43472; 43504; 43600; 44016; 65296; 66720; 68912; 69734; 69872;
    69942; 70096; 70384; 70736; 70864; 71248; 71360; 71472; 71904;
    72016; 72784; 73040; 73120; 92768; 92864; 93008; 120782; 120792;
    120802; 120812; 120822; 123200; 123632; 125264; 130032 ].

Fixpoint zero_of (c : Z) (zs : list Z) : option Z :=
  match zs with
  | [] => None
  | z :: zs => if (z <=? c) && (c <=? z + 9) then Some z else zero_of c zs
  end.

(** [unicodedata.decimal]: the value of a decimal digit. *)
Definition decimal (c : Z) : option Z := (λ z, c - z) <$> zero_of c digit_zeros.

(** [\d] *)
Definition is_digit (c : Z) : bool :=
  match decimal c with
  | Some _ => true
  | None => false
  end.

(** The value [int()] gives a digit. *)
Definition digit_value (c : Z) : Z := default 0 (decimal c).

(** The blanks: TAB..CR, FS..US and space, NEL, NBSP, U+1680,
    U+2000..U+200A, U+2028, U+2029, U+202F, U+205F, U+3000. *)
Definition space_ranges : list (Z * Z) :=
  [ (9, 13); (28, 32); (133, 133); (160, 160); (5760, 5760); (8192, 8202);
    (8232, 8233); (8239, 8239); (8287, 8287); (12288, 12288) ].

(** [\s], and the characters [str.strip()] removes. *)
Definition is_space (c : Z) : bool :=
  existsb (λ r, (r.1 <=? c) && (c <=? r.2)) space_ranges.

(** *** [strip], [startswith], [endswith] *)

Fixpoint lstrip (l : list Z) : list Z :=
  match l with
  | c :: r => if is_space c then lstrip r else l
  | [] => []
  end.

Definition rstrip (l : list Z) : list Z := rev (lstrip (rev l)).

(** [s.strip()] *)
Definition strip (s : string) : string := of_chars (rstrip (lstrip (chars s))).

(** [s.startswith(a) and s.endswith(b)] for one-character [a], [b] *)
Definition startswith (l : list Z) (a : Z) : bool :=
  match l with
  | c :: _ => bool_decide (c = a)
  | [] => false
  end.

Definition endswith (l : list Z) (b : Z) : bool :=
  match last l with
  | Some c => bool_decide (c = b)
  | None => false
  end.

(** The test that guards [json.loads]: braces (123, 125) or brackets
    (91, 93) at both ends. *)
Definition looks_like_json (s : string) : bool :=
  (startswith (chars s) 123 && endswith (chars s) 125)
  || (startswith (chars s) 91 && endswith (chars s) 93).

(** *** The regular expressions *)

(** [$] (no MULTILINE flag): at the end of the text, or just before a
    newline that ends it. *)
Definition at_dollar (l : list Z) : bool :=
  match l with
  | [] => true
  | [c] => c =? 10
  | _ => false
  end.

(** [\s*$], by backtracking over the number of blanks taken. *)
Fixpoint spaces_dollar (l : list Z) : bool :=
  at_dollar l ||
  match l with
  | c :: r => is_space c && spaces_dollar r
  | [] => false
  end.

(** [\d{1,2}] followed by [tail], anchored at the head of [l]: two digits
    are tried first (greedy), then one.  The result is the digit group. *)
Definition match_digits (tail : list Z → bool) (l : list Z) : option (list Z) :=
  match l with
  | d1 :: r =>
      if is_digit d1 then
        match r with
        | d2 :: r' =>
            if is_digit d2 && tail r' then Some [d1; d2]
            else if tail r then Some [d1] else None
        | [] => if tail [] then Some [d1] else None
        end
      else None
  | [] => None
  end.

(** [re.search]: the leftmost position where the anchored match succeeds. *)
Fixpoint re_search (m : list Z → option (list Z)) (l : list Z)
  : option (list Z) :=
  match m l with
  | Some g => Some g
  | None =>
      match l with
      | _ :: r => re_search m r
      | [] => None
      end
  end.

(** [int(g)] on a group of decimal digits *)
Definition int_of_digits (g : list Z) : Z :=
  fold_left (λ acc c, 10 * acc + digit_value c) g 0.

(** [re.search(r"\d{1,2}$", s)] then [int(m.group())] *)
Definition search_digits_end (s : string) : option Z :=
  int_of_digits <$> re_search (match_digits at_dollar) (chars s).

(** [re.search(r"(\d{1,2})\s*$", s)] then [int(m.group(1))] *)
Definition search_digits_spaces_end (s : string) : option Z :=
  int_of_digits <$> re_search (match_digits spaces_dollar) (chars s).

(** What both regular expressions need of their tail: it accepts the end of
    the text and rejects any text that ends in a digit. *)
Definition end_anchor (tail : list Z → bool) : Prop :=
  tail [] = true ∧ ∀ q d, is_digit d = true → tail (q ++ [d]) = false.

(** ** Dedup window: [dedup_key] and the head of [handle_result] *)

(** The two readings of the clock a call makes: [time.time()] rounded down
    to whole seconds, and [now_iso()]. *)
Record clock := Clock {
  unix_seconds : Z;
  iso : string
}.

(** [issue or f"{n}-{int(time.time()//60)}"] *)
Definition dedup_key (issue : option string) (n : pyint) (clk : clock) : string :=
  let fallback := int_str n +:+ "-" +:+ pretty (unix_seconds clk / 60) in
  match issue with
  | Some s => if bool_decide (s = "") then fallback else s
  | None => fallback
  end.

(** The index a slice bound [stop] denotes in a list of length [len]. *)
Definition slice_index (len stop : Z) : Z :=
  if stop <? 0 then Z.max (len + stop) 0 else Z.min stop len.

(** [del l[:stop]] *)
Definition del_upto (stop : Z) (l : list string) : list string :=
  drop (Z.to_nat (slice_index (Z.of_nat (length l)) stop)) l.

(** Lines 182-187 of [handle_result]: the membership test, the append and
    the trim.  The boolean tells whether the call went on to emit a signal
    ([false]: the early [return]); the list is [SEEN_KEYS] afterwards. *)
Definition accept (max_keep : Z) (dkey : string) (SEEN_KEYS : list string)
  : bool * list string :=
  if bool_decide (dkey ∈ SEEN_KEYS) then (false, SEEN_KEYS)
  else
    let SEEN_KEYS := SEEN_KEYS ++ [dkey] in
    if max_keep <? Z.of_nat (length SEEN_KEYS)
    then (true, del_upto (- max_keep) SEEN_KEYS)
    else (true, SEEN_KEYS).

(** The window after presenting the keys of [ks] in order. *)
Definition accept_all (max_keep : Z) (ks : list string) (SEEN_KEYS : list string)
  : list string :=
  fold_left (λ seen k, (accept max_keep k seen).2) ks SEEN_KEYS.

(** ** Payload normaliser *)

Record event := Event {
  issue : option string;
  number : pyint;
  raw : pyval
}.

(** What a call of bounded nesting depth yields. *)
Inductive result :=
| TooDeep
| Return (r : option event).

Record payload := Payload {
  p_symbol : string;
  p_timeframe : string;
  p_game : string;
  p_issue : option string;
  p_created_at : string;
  p_signal : signal
}.

(** [handle_result]: the payload handed to the log and the sinks, if any,
    and [SEEN_KEYS] afterwards. *)
Definition handle_result (cfg : config) (clk : clock) (res : event)
    (SEEN_KEYS : list string) : option payload * list string :=
  let n := number res in
  let dkey := dedup_key (issue res) n clk in
  let '(fresh, SEEN_KEYS) := accept (DEDUP_WINDOW cfg) dkey SEEN_KEYS in
  if fresh then
    let sig := make_signal cfg n in
    (Some {| p_symbol := SYMBOL cfg; p_timeframe := TIMEFRAME cfg;
             p_game := GAME cfg; p_issue := issue res;
             p_created_at := iso clk; p_signal := sig |}, SEEN_KEYS)
  else (None, SEEN_KEYS).

Fixpoint safe_get (cur : pyval) (keys : list string) (default : pyval) : pyval :=
  match keys with
  | [] => cur
  | k :: keys =>
      match cur with
      | PDict m =>
          match m !! k with
          | Some v => safe_get v keys default
          | None => default
          end
      | _ => default
      end
  end.

(** [bool(v)] *)
Definition truthy (v : pyval) : bool :=
  match v with
  | PNone => false
  | PBool b => b
  | PInt z => negb (z =? 0)
  | PStr s => negb (bool_decide (s = ""))
  | PList l => negb (bool_decide (length l = 0%nat))
  | PDict m => negb (bool_decide (size m = 0%nat))
  | POther t _ => t
  end.

(** [a or b] *)
Definition py_or (a b : pyval) : pyval := if truthy a then a else b.

(** [c] if [isinstance(c, int)] *)
Definition as_int (c : pyval) : option pyint :=
  match c with
  | PInt z => Some (IInt z)
  | PBool b => Some (IBool b)
  | _ => None
  end.

(** [issue or None] on a string *)
Definition or_none (s : string) : option string :=
  if bool_decide (s = "") then None else Some s.

(** [0 <= n <= 99] *)
Definition in_range (n : Z) : bool := (0 <=? n) && (n <=? 99).

Definition candidates (data : pyval) : list pyval :=
  [ safe_get data ["number"] PNone;
    safe_get data ["result"] PNone;
    safe_get data ["openCode"] PNone;
    safe_get data ["lucky"] PNone;
    safe_get data ["lottery"; "number"] PNone;
    safe_get data ["data"; "number"] PNone ].

Definition collection_keys : list string := ["list"; "rows"; "data"; "resultList"].

(** The second loop of the [dict] branch: the element the function recurses
    into, namely [arr[-1]] for the first key bound to a non-empty list. *)
Fixpoint first_collection (data : pyval) (ks : list string) : option pyval :=
  match ks with
  | [] => None
  | k :: ks =>
      match safe_get data [k] PNone with
      | PList arr =>
          match last arr with
          | Some x => Some x
          | None => first_collection data ks
          end
      | _ => first_collection data ks
      end
  end.

(** A collection key the second loop passes over: missing, bound to
    something that is not a list, or bound to the empty list. *)
Definition skipped (d : gmap string pyval) (k : string) : Prop :=
  ∀ arr, d !! k = Some (PList arr) → arr = [].

Section Normalizer.

(** [json.loads]: [None] when it raises. *)
Variable json_loads : string → option pyval.
(** [str(v)] for a [list] or a [dict]. *)
Variable container_str : pyval → string.

(** [str(v)] *)
Definition py_str (v : pyval) : string :=
  match v with
  | PNone => "None"
  | PBool b => if b then "True" else "False"
  | PInt z => pretty z
  | PStr s => s
  | PList _ | PDict _ => container_str v
  | POther _ text => text
  end.

(** [str(safe_get(data, "issue") or safe_get(data, "expect")
         or safe_get(data, "period") or "")], then [issue or None] *)
Definition resolve_issue (data : pyval) : option string :=
  let issue :=
    py_str (py_or (py_or (py_or (safe_get data ["issue"] PNone)
                                (safe_get data ["expect"] PNone))
                         (safe_get data ["period"] PNone))
                  (PStr "")) in
  or_none issue.

(** The first loop of the [dict] branch. *)
Fixpoint scan_candidates (data : pyval) (cs : list pyval) : option event :=
  match cs with
  | [] => None
  | c :: cs =>
      match as_int c with
      | Some n =>
          if in_range (int_val n)
          then Some {| issue := resolve_issue data; number := n; raw := data |}
          else scan_candidates data cs
      | None =>
          match c with
          | PStr s =>
              match search_digits_end (strip s) with
              | Some n =>
                  if in_range n
                  then Some {| issue := resolve_issue data; number := IInt n; raw := data |}
                  else scan_candidates data cs
              | None => scan_candidates data cs
              end
          | _ => scan_candidates data cs
          end
      end
  end.

(** [parse_number_from_payload], with [fuel] bounding the depth of nested
    calls: [TooDeep] when the bound is reached, [Return r] when the call
    returns [r] within it.  The [try] around [json.loads] also covers the
    recursive call, which raises nothing within the bound. *)
Fixpoint parse_number_from_payload (fuel : nat) (data : pyval) : result :=
  match fuel with
  | O => TooDeep
  | S fuel =>
      match data with
      | PDict _ =>
          match scan_candidates data (candidates data) with
          | Some ev => Return (Some ev)
          | None =>
              match first_collection data collection_keys with
              | Some x => parse_number_from_payload fuel x
              | None => Return None
              end
          end
      | PStr str =>
          let s := strip str in
          match (if looks_like_json s then json_loads s else None) with
          | Some v => parse_number_from_payload fuel v
          | None =>
              match search_digits_spaces_end s with
              | Some n =>
                  if in_range n
                  then Return (Some {| issue := None; number := IInt n; raw := data |})
                  else Return None
              | None => Return None
              end
          end
      | PList l =>
          match last l with
          | Some x => parse_number_from_payload fuel x
          | None => Return None
          end
      | _ => Return None
      end
  end.

(** The handler registered for every event name, and the history backfill:
    [parsed = parse_number_from_payload(data)], then
    [if parsed: handle_result(parsed)]. *)
Definition on_message (fuel : nat) (cfg : config) (clk : clock) (data : pyval)
    (SEEN_KEYS : list string) : option (option payload * list string) :=
  match parse_number_from_payload fuel data with
  | TooDeep => None
  | Return None => Some (None, SEEN_KEYS)
  | Return (Some parsed) => Some (handle_result cfg clk parsed SEEN_KEYS)
  end.

End Normalizer.

(** ** Notions used to state further properties *)

(** A text that does not end in a blank; [str.strip()] returns such texts. *)
Definition clean (l : list Z) : Prop :=
  ∀ c, last l = Some c → is_space c = false.

(** The values [chars] yields: 21 bits at most. *)
Definition code_point (c : Z) : Prop := 0 ≤ c < 2097152.

(** A candidate the first loop passes over: an integer out of range, a
    string without final digits, or a value of another type. *)
Definition rejected (c : pyval) : Prop :=
  (∀ n, as_int c = Some n → in_range (int_val n) = false)
  ∧ (∀ s, c = PStr s → search_digits_end (strip s) = None).

(** The values that are neither a string, a list nor a mapping. *)
Definition atom (v : pyval) : bool :=
  match v with
  | PStr _ | PList _ | PDict _ => false
  | _ => true
  end.

(** The size of a payload: characters of a string plus one, elements of a
    container plus one. *)
Fixpoint weight (v : pyval) : nat :=
  match v with
  | PStr s => S (String.length s)
  | PList l => S (foldr (λ x acc, weight x + acc)%nat 0%nat l)
  | PDict d => S (map_fold (λ _ x acc, weight x + acc)%nat 0%nat d)
  | _ => 1
  end.

(** ** Example payloads *)

(** Instances for the examples: a decoder that raises on every text and a
    constant rendering of containers.  No example payload contains text
    that looks like JSON, or a container in an issue field, so neither
    choice shows in a result. *)
Definition json_raises : string → option pyval := λ _, None.
Definition container_dots : pyval → string := λ _, "[...]".

(** [{"number": 7, "issue": "", "expect": "E9"}] *)
Definition sample_fields : gmap string pyval :=
  <[ "number" := PInt 7 ]> (<[ "issue" := PStr "" ]> {[ "expect" := PStr "E9" ]}).

Definition sample_event : event :=
  {| issue := Some "E9"; number := IInt 7; raw := PDict sample_fields |}.

(** [{"issue": "X", "list": [{"number": 3}]}] *)
Definition sample_wrapped : gmap string pyval :=
  <[ "issue" := PStr "X" ]> {[ "list" := PList [PDict {[ "number" := PInt 3 ]}] ]}.

(** [{"number": 150, "result": "no. 42", "lucky": 7}] *)
Definition sample_fallback : gmap string pyval :=
  <[ "number" := PInt 150 ]> (<[ "result" := PStr "no. 42" ]> {[ "lucky" := PInt 7 ]}).

(** [{"list": [], "rows": [{"number": 3}, {"number": 8}]}] *)
Definition sample_history : gmap string pyval :=
  <[ "list" := PList [] ]>
    {[ "rows" := PList [PDict {[ "number" := PInt 3 ]}; PDict {[ "number" := PInt 8 ]}] ]}.

(** * Properties *)

(** ** Signal classifier *)

Lemma big_small_cases (t : Z) (n : pyint) :
  (t ≤ int_val n ∧ big_small t n = "BIG") ∨ (int_val n < t ∧ big_small t n = "SMALL").
Proof. unfold big_small. destruct (Z.leb_spec t (int_val n)); auto. Qed.

Lemma even_odd_cases (n : pyint) :
  (int_val n mod 2 = 0 ∧ even_odd n = "EVEN") ∨ (int_val n mod 2 ≠ 0 ∧ even_odd n = "ODD").
Proof. unfold even_odd. destruct (Z.eqb_spec (int_val n mod 2) 0); auto. Qed.

(** C1. For every integer [n] (in particular every [n] in [0,99]) and every
    threshold, the signal of [make_signal] has size BIG exactly when
    [n >= threshold] and SMALL otherwise, and parity EVEN exactly when
    [n mod 2 = 0] and ODD otherwise; the property is read off the
    [decision] string the function returns. *)
Theorem make_signal_size_parity (cfg : config) (n : pyint) :
  let t := BIG_THRESHOLD cfg in
  let d := decision (make_signal cfg n) in
  (t ≤ int_val n ↔ d = "BIG / EVEN" ∨ d = "BIG / ODD") ∧
  (int_val n < t ↔ d = "SMALL / EVEN" ∨ d = "SMALL / ODD") ∧
  (int_val n mod 2 = 0 ↔ d = "BIG / EVEN" ∨ d = "SMALL / EVEN") ∧
  (int_val n mod 2 ≠ 0 ↔ d = "BIG / ODD" ∨ d = "SMALL / ODD").
Proof.
  cbn zeta. unfold make_signal; cbn [decision].
  destruct (big_small_cases (BIG_THRESHOLD cfg) n) as [[Hs ->] | [Hs ->]];
    destruct (even_odd_cases n) as [[Hp ->] | [Hp ->]];
    repeat split; intros; auto; try lia;
    repeat match goal with H : _ ∨ _ |- _ => destruct H end;
    discriminate.
Qed.

Lemma in_pair_spec (n a b : Z) : in_pair n a b = true ↔ n = a ∨ n = b.
Proof. unfold in_pair. rewrite orb_true_iff, !Z.eqb_eq. tauto. Qed.

Lemma in_pair_false (n a b : Z) : in_pair n a b = false ↔ n ≠ a ∧ n ≠ b.
Proof. unfold in_pair. rewrite orb_false_iff, !Z.eqb_neq. tauto. Qed.

(** C2. The confidence of [make_signal] is 65 when [n] is 0 or 9, otherwise
    55 when [n] is the threshold or the threshold minus one, otherwise 60:
    the extremal assignment comes last and overwrites the boundary one. *)
Theorem make_signal_confidence (cfg : config) (n : pyint) :
  confidence (make_signal cfg n) =
    if decide (int_val n = 0 ∨ int_val n = 9) then 65
    else if decide (int_val n = BIG_THRESHOLD cfg ∨ int_val n = BIG_THRESHOLD cfg - 1) then 55
    else 60.
Proof.
  unfold make_signal, confidence_of; cbn [confidence].
  destruct (in_pair (int_val n) 0 9) eqn:Hx.
  - apply in_pair_spec in Hx. rewrite decide_True; done.
  - apply in_pair_false in Hx. rewrite decide_False by tauto.
    destruct (in_pair (int_val n) _ _) eqn:Hb.
    + apply in_pair_spec in Hb. rewrite decide_True; done.
    + apply in_pair_false in Hb. rewrite decide_False; tauto.
Qed.

(** C3, as stated, fails: with threshold 9 the number 9 is both the
    boundary and an extremal value, and [make_signal] gives it confidence
    65, not 55; so the boundary property does not hold for every
    threshold. *)
Lemma boundary_confidence_overlap :
  confidence (make_signal (Config 9 200 "WinGo" "30s" "WinGo_30S") (IInt 9)) = 65
  ∧ ¬ (∀ cfg : config,
         confidence (make_signal cfg (IInt (BIG_THRESHOLD cfg))) = 55
         ∧ (0 ≤ BIG_THRESHOLD cfg - 1 →
            confidence (make_signal cfg (IInt (BIG_THRESHOLD cfg - 1))) = 55)).
Proof.
  split; [reflexivity |].
  intros Hall. destruct (Hall (Config 9 200 "WinGo" "30s" "WinGo_30S")) as [H9 _].
  discriminate H9.
Qed.

(** C3, amended. A number equal to the threshold or to the threshold minus
    one has confidence 55 provided it is neither 0 nor 9. *)
Theorem boundary_confidence (cfg : config) (n : pyint) :
  int_val n = BIG_THRESHOLD cfg ∨ int_val n = BIG_THRESHOLD cfg - 1 →
  int_val n ≠ 0 → int_val n ≠ 9 →
  confidence (make_signal cfg n) = 55.
Proof.
  intros Hb H0 H9. unfold make_signal, confidence_of; cbn [confidence].
  assert (in_pair (int_val n) 0 9 = false) as -> by by apply in_pair_false.
  assert (in_pair (int_val n) (BIG_THRESHOLD cfg) (BIG_THRESHOLD cfg - 1) = true) as ->
    by by apply in_pair_spec.
  reflexivity.
Qed.

Lemma boundary_confidence_witness :
  confidence (make_signal default_config (IInt 5)) = 55
  ∧ confidence (make_signal default_config (IInt 4)) = 55.
Proof.
  split.
  - apply (boundary_confidence default_config (IInt 5)); simpl; [left; reflexivity | lia | lia].
  - apply (boundary_confidence default_config (IInt 4)); simpl; [right; reflexivity | lia | lia].
Defined.

(** ** Dedup window *)

Lemma accept_duplicate (N : Z) (k : string) (seen : list string) :
  k ∈ seen → accept N k seen = (false, seen).
Proof. intros Hin. unfold accept. by rewrite bool_decide_true. Qed.

Lemma accept_fresh (N : Z) (k : string) (seen : list string) :
  k ∉ seen →
  accept N k seen =
    (true, if N <? Z.of_nat (length (seen ++ [k]))
           then del_upto (- N) (seen ++ [k]) else seen ++ [k]).
Proof.
  intros Hnin. unfold accept. rewrite bool_decide_false by done.
  by destruct (N <? _).
Qed.

Lemma accept_verdict (N : Z) (k : string) (seen : list string) :
  (accept N k seen).1 = bool_decide (k ∉ seen).
Proof.
  destruct (decide (k ∈ seen)) as [Hin | Hnin].
  - rewrite accept_duplicate, bool_decide_false; auto.
  - rewrite accept_fresh, bool_decide_true; auto.
Qed.

Lemma elem_of_del_upto (stop : Z) (x : string) (l : list string) :
  x ∈ del_upto stop l → x ∈ l.
Proof.
  unfold del_upto. intros Hx.
  rewrite <- (take_drop (Z.to_nat (slice_index (Z.of_nat (length l)) stop)) l).
  apply elem_of_app. by right.
Qed.

(** The window only ever holds keys that were in it or were presented. *)
Lemma accept_window_sub (N : Z) (k x : string) (seen : list string) :
  x ∈ (accept N k seen).2 → x ∈ seen ∨ x = k.
Proof.
  destruct (decide (k ∈ seen)) as [Hin | Hnin].
  - rewrite accept_duplicate by done. auto.
  - rewrite accept_fresh by done. cbn [snd].
    intros Hx.
    assert (x ∈ seen ++ [k]) as Hx'
      by (destruct (N <? _); [by eapply elem_of_del_upto | done]).
    apply elem_of_app in Hx' as [? | ?%list_elem_of_singleton]; auto.
Qed.

Lemma accept_all_sub (N : Z) (ks : list string) (x : string) (seen : list string) :
  x ∈ accept_all N ks seen → x ∈ seen ∨ x ∈ ks.
Proof.
  revert seen. induction ks as [| k ks IH]; intros seen; cbn.
  - auto.
  - intros Hx. apply IH in Hx as [Hx | Hx].
    + apply accept_window_sub in Hx as [? | ->]; [by left | right; by left].
    + right. by right.
Qed.

(** With a capacity of at least one, a fresh key leaves the most recent
    [N] keys, in arrival order. *)
Lemma accept_fresh_window (N : Z) (k : string) (seen : list string) :
  1 ≤ N → k ∉ seen →
  (accept N k seen).2 = drop (Z.to_nat (Z.of_nat (length seen) + 1 - N)) (seen ++ [k]).
Proof.
  intros HN Hnin. rewrite accept_fresh by done. cbn [snd].
  rewrite length_app; cbn [length].
  destruct (Z.ltb_spec N (Z.of_nat (length seen + 1))) as [Hlt | Hge].
  - unfold del_upto, slice_index. rewrite length_app; cbn [length].
    destruct (Z.ltb_spec (- N) 0); [| lia].
    f_equal. lia.
  - replace (Z.to_nat _) with 0%nat by lia. done.
Qed.

Lemma accept_length (N : Z) (k : string) (seen : list string) :
  1 ≤ N → Z.of_nat (length seen) ≤ N → Z.of_nat (length (accept N k seen).2) ≤ N.
Proof.
  intros HN Hlen. destruct (decide (k ∈ seen)) as [Hin | Hnin].
  - by rewrite accept_duplicate.
  - rewrite accept_fresh_window by done.
    rewrite length_drop, length_app; cbn [length]. lia.
Qed.

Lemma accept_all_length (N : Z) (ks : list string) (seen : list string) :
  1 ≤ N → Z.of_nat (length seen) ≤ N → Z.of_nat (length (accept_all N ks seen)) ≤ N.
Proof.
  intros HN. revert seen. induction ks as [| k ks IH]; intros seen Hlen; cbn.
  - done.
  - apply IH. by apply accept_length.
Qed.

(** [handle_result] emits a payload exactly when [accept] says the key is
    new, and leaves the window [accept] computes. *)
Lemma handle_result_accept (cfg : config) (clk : clock) (ev : event) (seen : list string) :
  let a := accept (DEDUP_WINDOW cfg) (dedup_key (issue ev) (number ev) clk) seen in
  (handle_result cfg clk ev seen).2 = a.2
  ∧ (is_Some (handle_result cfg clk ev seen).1 ↔ a.1 = true).
Proof.
  cbn zeta. unfold handle_result.
  destruct (accept _ _ _) as [[] w]; cbn; split; auto; split; eauto.
  - intros [? ?]; discriminate.
  - discriminate.
Qed.

(** C4. [accept] answers [true] the first time a key is presented (whatever
    keys came before, starting from the empty window) and [false] whenever
    the key is still in the window; with capacity 2 the run a, b, a, c, a
    answers true, true, false, true (dropping a), true. *)
Theorem accept_first_time_then_duplicate :
  (∀ (N : Z) (ks : list string) (k : string),
      k ∉ ks → (accept N k (accept_all N ks [])).1 = true)
  ∧ (∀ (N : Z) (seen : list string) (k : string),
      k ∈ seen → (accept N k seen).1 = false)
  ∧ accept 2 "a" [] = (true, ["a"])
  ∧ accept 2 "b" ["a"] = (true, ["a"; "b"])
  ∧ accept 2 "a" ["a"; "b"] = (false, ["a"; "b"])
  ∧ accept 2 "c" ["a"; "b"] = (true, ["b"; "c"])
  ∧ accept 2 "a" ["b"; "c"] = (true, ["c"; "a"]).
Proof.
  split; [| split].
  - intros N ks k Hk. rewrite accept_verdict. apply bool_decide_eq_true.
    intros Hin. apply accept_all_sub in Hin as [Hin | Hin]; [| done].
    by apply elem_of_nil in Hin.
  - intros N seen k Hin. by rewrite accept_duplicate.
  - repeat split; vm_compute; reflexivity.
Qed.

Lemma accept_first_time_then_duplicate_witness :
  (accept 2 "c" (accept_all 2 ["a"; "b"; "a"] [])).1 = true
  ∧ (accept 2 "a" ["a"; "b"]).1 = false.
Proof.
  destruct accept_first_time_then_duplicate as (Hnew & Hdup & _).
  split.
  - apply (Hnew 2 ["a"; "b"; "a"] "c"). compute_done.
  - apply (Hdup 2 ["a"; "b"] "a"). compute_done.
Defined.

(** C5. For a capacity [N >= 1] the window never holds more than [N] keys:
    the bound holds after any run from the empty window, every single
    operation preserves it, and a new key leaves exactly the [N] most
    recent keys in arrival order (the oldest are dropped from the front). *)
Theorem window_bounded (N : Z) (HN : 1 ≤ N) :
  (∀ ks : list string, Z.of_nat (length (accept_all N ks [])) ≤ N)
  ∧ (∀ (seen : list string) (k : string),
      Z.of_nat (length seen) ≤ N → Z.of_nat (length (accept N k seen).2) ≤ N)
  ∧ (∀ (seen : list string) (k : string),
      k ∉ seen →
      (accept N k seen).2 =
        drop (Z.to_nat (Z.of_nat (length seen) + 1 - N)) (seen ++ [k]))
  ∧ (∀ (cfg : config) (clk : clock) (ev : event) (seen : list string),
      DEDUP_WINDOW cfg = N → Z.of_nat (length seen) ≤ N →
      Z.of_nat (length (handle_result cfg clk ev seen).2) ≤ N).
Proof.
  repeat split.
  - intros ks. apply accept_all_length; [done | cbn; lia].
  - intros seen k Hlen. by apply accept_length.
  - intros seen k Hk. by apply accept_fresh_window.
  - intros cfg clk ev seen <- Hlen.
    destruct (handle_result_accept cfg clk ev seen) as [-> _].
    by apply accept_length.
Qed.

Lemma window_bounded_witness :
  Z.of_nat (length (accept_all 2 ["a"; "b"; "a"; "c"; "a"] [])) ≤ 2
  ∧ (accept 2 "c" ["a"; "b"]).2 = ["b"; "c"].
Proof.
  destruct (window_bounded 2 ltac:(lia)) as (Hrun & _ & Hfifo & _).
  split.
  - apply Hrun.
  - apply (Hfifo ["a"; "b"] "c"). compute_done.
Defined.

(** C6. Presenting a key that is already in the window is rejected and
    leaves the window as it was, same keys in the same order; so it is for
    [handle_result], which then emits nothing. *)
Theorem duplicate_leaves_window (N : Z) (k : string) (seen : list string) :
  k ∈ seen →
  accept N k seen = (false, seen)
  ∧ (∀ (cfg : config) (clk : clock) (ev : event),
      DEDUP_WINDOW cfg = N → dedup_key (issue ev) (number ev) clk = k →
      handle_result cfg clk ev seen = (None, seen)).
Proof.
  intros Hin. split.
  - by apply accept_duplicate.
  - intros cfg clk ev <- <-. unfold handle_result.
    by rewrite accept_duplicate.
Qed.

Lemma duplicate_leaves_window_witness :
  accept 2 "a" ["a"; "b"] = (false, ["a"; "b"]).
Proof.
  apply (duplicate_leaves_window 2 "a" ["a"; "b"]). compute_done.
Defined.

(** ** Digits and the trailing-digit search *)

Lemma zero_of_Some (c : Z) (zs : list Z) (z : Z) :
  zero_of c zs = Some z → z ∈ zs ∧ z ≤ c ≤ z + 9.
Proof.
  induction zs as [| z' zs IH]; cbn [zero_of]; [done |].
  destruct ((z' <=? c) && (c <=? z' + 9)) eqn:Hz.
  - intros [= <-]. apply andb_true_iff in Hz as [?%Z.leb_le ?%Z.leb_le].
    split; [by left | lia].
  - intros [Hin Hr]%IH. split; [by right | done].
Qed.

Lemma is_digit_decimal (c : Z) :
  is_digit c = true → ∃ z, zero_of c digit_zeros = Some z ∧ decimal c = Some (c - z).
Proof.
  unfold is_digit, decimal.
  destruct (zero_of c digit_zeros) as [z |]; [| done]. intros _. by exists z.
Qed.

Lemma is_digit_value (c : Z) : is_digit c = true → 0 ≤ digit_value c ≤ 9.
Proof.
  intros (z & Hz & Hd)%is_digit_decimal. unfold digit_value. rewrite Hd. cbn.
  apply zero_of_Some in Hz as [_ Hz]. lia.
Qed.

Lemma ranges_apart (rs : list (Z * Z)) (z c : Z) :
  forallb (λ r, (z + 9 <? r.1) || (r.2 <? z)) rs = true →
  z ≤ c ≤ z + 9 →
  existsb (λ r, (r.1 <=? c) && (c <=? r.2)) rs = false.
Proof.
  intros Hall Hc. induction rs as [| [a b] rs IH]; [done |].
  cbn [forallb existsb fst snd] in *.
  apply andb_true_iff in Hall as [Hab Hall]. rewrite IH by done.
  apply orb_true_iff in Hab as [?%Z.ltb_lt | ?%Z.ltb_lt].
  - by replace (a <=? c) with false by (symmetry; apply Z.leb_gt; lia).
  - replace (c <=? b) with false by (symmetry; apply Z.leb_gt; lia).
    by rewrite andb_false_r.
Qed.

(** No decimal digit is a blank. *)
Lemma digit_zeros_apart :
  forallb (λ z, forallb (λ r : Z * Z, (z + 9 <? r.1) || (r.2 <? z)) space_ranges)
    digit_zeros = true.
Proof. vm_compute. reflexivity. Qed.

Lemma digit_not_space (c : Z) : is_digit c = true → is_space c = false.
Proof.
  intros (z & Hz & _)%is_digit_decimal.
  apply zero_of_Some in Hz as [Hin Hc].
  pose proof digit_zeros_apart as Hall.
  rewrite forallb_forall in Hall.
  apply (ranges_apart space_ranges z c); [| done].
  apply Hall. by apply list_elem_of_In.
Qed.

Lemma newline_is_space : is_space 10 = true.
Proof. reflexivity. Qed.

Lemma digit_not_newline (c : Z) : is_digit c = true → (c =? 10) = false.
Proof.
  intros Hd%digit_not_space. apply Z.eqb_neq. intros ->.
  by rewrite newline_is_space in Hd.
Qed.

Lemma at_dollar_digit_end (q : list Z) (d : Z) :
  is_digit d = true → at_dollar (q ++ [d]) = false.
Proof.
  intros Hd%digit_not_newline. destruct q as [| x [| y q]]; cbn [app at_dollar].
  - done.
  - done.
  - by destruct (q ++ [d]).
Qed.

Lemma spaces_dollar_unfold (l : list Z) :
  spaces_dollar l =
    at_dollar l || match l with c :: r => is_space c && spaces_dollar r | [] => false end.
Proof. by destruct l. Qed.

Lemma spaces_dollar_digit_end (q : list Z) (d : Z) :
  is_digit d = true → spaces_dollar (q ++ [d]) = false.
Proof.
  intros Hd. induction q as [| x q IH].
  - rewrite spaces_dollar_unfold, (at_dollar_digit_end [] d Hd). cbn [app].
    by rewrite (digit_not_space d Hd).
  - change ((x :: q) ++ [d]) with (x :: (q ++ [d])).
    rewrite spaces_dollar_unfold, IH, andb_false_r, orb_false_r.
    by apply (at_dollar_digit_end (x :: q)).
Qed.

Lemma at_dollar_anchor : end_anchor at_dollar.
Proof. split; [done | apply at_dollar_digit_end]. Qed.

Lemma spaces_dollar_anchor : end_anchor spaces_dollar.
Proof. split; [done | apply spaces_dollar_digit_end]. Qed.

(** No match can start three or more characters before a final digit. *)
Lemma match_digits_far (tail : list Z → bool) (x y : Z) (q : list Z) (d : Z) :
  end_anchor tail → is_digit d = true →
  match_digits tail (x :: y :: q ++ [d]) = None.
Proof.
  intros [_ Htail] Hd. cbn [match_digits].
  rewrite (Htail q d Hd), andb_false_r.
  change (y :: q ++ [d]) with ((y :: q) ++ [d]).
  rewrite (Htail (y :: q) d Hd). by destruct (is_digit x).
Qed.

Lemma re_search_two_digits (tail : list Z → bool) (p : list Z) (d1 d2 : Z) :
  end_anchor tail → is_digit d1 = true → is_digit d2 = true →
  re_search (match_digits tail) (p ++ [d1; d2]) = Some [d1; d2].
Proof.
  intros Ht H1 H2. induction p as [| x p IH].
  - cbn [app re_search match_digits]. destruct Ht as [-> _]. by rewrite H1, H2.
  - change ((x :: p) ++ [d1; d2]) with (x :: (p ++ [d1; d2])).
    cbn [re_search].
    assert (match_digits tail (x :: p ++ [d1; d2]) = None) as ->; [| done].
    replace (p ++ [d1; d2]) with ((p ++ [d1]) ++ [d2]) by by rewrite <- app_assoc.
    destruct (p ++ [d1]) as [| y q] eqn:Hq; [by destruct p |].
    by apply match_digits_far.
Qed.

Lemma re_search_one_digit (tail : list Z → bool) (p : list Z) (d : Z) :
  end_anchor tail → is_digit d = true →
  (∀ c, last p = Some c → is_digit c = false) →
  re_search (match_digits tail) (p ++ [d]) = Some [d].
Proof.
  intros Ht Hd. induction p as [| x p IH]; intros Hlast.
  - cbn [app re_search match_digits]. destruct Ht as [-> _]. by rewrite Hd.
  - change ((x :: p) ++ [d]) with (x :: (p ++ [d])). cbn [re_search].
    assert (match_digits tail (x :: p ++ [d]) = None) as ->.
    { destruct p as [| y q].
      - cbn [app match_digits]. rewrite (Hlast x) by done. done.
      - by apply match_digits_far. }
    apply IH. intros c Hc. apply Hlast.
    destruct p; [done | by rewrite last_cons, Hc].
Qed.

Lemma int_of_two_digits (d1 d2 : Z) :
  int_of_digits [d1; d2] = 10 * digit_value d1 + digit_value d2.
Proof. unfold int_of_digits; cbn [fold_left]. lia. Qed.

Lemma int_of_one_digit (d : Z) : int_of_digits [d] = digit_value d.
Proof. unfold int_of_digits; cbn [fold_left]. lia. Qed.

(** *** Reading back what was written *)

Lemma byte_range (b : ascii) : 0 ≤ byte b < 256.
Proof.
  unfold byte. pose proof (N_ascii_bounded b). lia.
Qed.

Lemma byte_chr (n : Z) : 0 ≤ n < 256 → byte (chr n) = n.
Proof.
  intros Hn. unfold byte, chr. rewrite N_ascii_embedding by lia. lia.
Qed.

Lemma chars_step (b1 : ascii) (s1 : string) :
  chars (String b1 s1) =
    let x1 := byte b1 in
    if x1 <? 128 then x1 :: chars s1
    else if (192 <=? x1) && (x1 <? 224) then
      match s1 with
      | String b2 s2 =>
          if is_cont b2
          then (x1 - 192) * 64 + (byte b2 - 128) :: chars s2
          else malformed :: chars s1
      | _ => malformed :: chars s1
      end
    else if (224 <=? x1) && (x1 <? 240) then
      match s1 with
      | String b2 (String b3 s3) =>
          if is_cont b2 && is_cont b3
          then (x1 - 224) * 4096 + (byte b2 - 128) * 64 + (byte b3 - 128) :: chars s3
          else malformed :: chars s1
      | _ => malformed :: chars s1
      end
    else if (240 <=? x1) && (x1 <? 248) then
      match s1 with
      | String b2 (String b3 (String b4 s4)) =>
          if is_cont b2 && is_cont b3 && is_cont b4
          then (x1 - 240) * 262144 + (byte b2 - 128) * 4096
               + (byte b3 - 128) * 64 + (byte b4 - 128) :: chars s4
          else malformed :: chars s1
      | _ => malformed :: chars s1
      end
    else malformed :: chars s1.
Proof. reflexivity. Qed.

Lemma is_cont_chr (n : Z) : 128 ≤ n < 192 → is_cont (chr n) = true.
Proof.
  intros Hn. unfold is_cont. rewrite byte_chr by lia.
  apply andb_true_iff. split; [apply Z.leb_le | apply Z.ltb_lt]; lia.
Qed.

Lemma is_cont_range (b : ascii) : is_cont b = true → 128 ≤ byte b < 192.
Proof.
  unfold is_cont. intros [?%Z.leb_le ?%Z.ltb_lt]%andb_true_iff. lia.
Qed.

Ltac div_lia := Z.div_mod_to_equations; lia.

Ltac cmp_false := symmetry; first [apply Z.ltb_ge | apply Z.leb_gt]; div_lia.
Ltac cmp_true := symmetry; first [apply Z.ltb_lt | apply Z.leb_le]; div_lia.

(** Decoding the bytes of a code point gives the code point back. *)
Lemma chars_encode (c : Z) (s : string) :
  code_point c → chars (foldr String s (encode c)) = c :: chars s.
Proof.
  unfold code_point, encode. intros Hc.
  destruct (Z.ltb_spec c 128) as [H1 | H1];
    [| destruct (Z.ltb_spec c 2048) as [H2 | H2];
       [| destruct (Z.ltb_spec c 65536) as [H3 | H3]]];
    cbn [foldr]; rewrite chars_step; cbn zeta.
  - rewrite byte_chr by lia.
    by replace (c <? 128) with true by cmp_true.
  - rewrite !byte_chr by div_lia. rewrite is_cont_chr by div_lia.
    replace (192 + c / 64 <? 128) with false by cmp_false.
    replace (192 <=? 192 + c / 64) with true by cmp_true.
    replace (192 + c / 64 <? 224) with true by cmp_true.
    cbn [andb]. f_equal. div_lia.
  - rewrite !byte_chr by div_lia. rewrite !is_cont_chr by div_lia.
    replace (224 + c / 4096 <? 128) with false by cmp_false.
    replace (192 <=? 224 + c / 4096) with true by cmp_true.
    replace (224 + c / 4096 <? 224) with false by cmp_false.
    replace (224 <=? 224 + c / 4096) with true by cmp_true.
    replace (224 + c / 4096 <? 240) with true by cmp_true.
    cbn [andb]. f_equal. div_lia.
  - rewrite !byte_chr by div_lia. rewrite !is_cont_chr by div_lia.
    replace (240 + c / 262144 <? 128) with false by cmp_false.
    replace (192 <=? 240 + c / 262144) with true by cmp_true.
    replace (240 + c / 262144 <? 224) with false by cmp_false.
    replace (224 <=? 240 + c / 262144) with true by cmp_true.
    replace (240 + c / 262144 <? 240) with false by cmp_false.
    replace (240 <=? 240 + c / 262144) with true by cmp_true.
    replace (240 + c / 262144 <? 248) with true by cmp_true.
    cbn [andb]. f_equal. div_lia.
Qed.

Lemma chars_of_chars (l : list Z) : Forall code_point l → chars (of_chars l) = l.
Proof.
  induction 1 as [| c l Hc _ IH]; [done |].
  cbn [of_chars]. by rewrite chars_encode, IH.
Qed.

Lemma encode_length (c : Z) :
  (1 ≤ length (encode c) ≤ 4)%nat
  ∧ (c < 128 → length (encode c) = 1%nat)
  ∧ (c < 2048 → (length (encode c) ≤ 2)%nat)
  ∧ (c < 65536 → (length (encode c) ≤ 3)%nat).
Proof.
  unfold encode.
  destruct (Z.ltb_spec c 128); [| destruct (Z.ltb_spec c 2048);
    [| destruct (Z.ltb_spec c 65536)]]; cbn [length]; repeat split; lia.
Qed.

Lemma prepend_length (bs : list ascii) (s : string) :
  String.length (foldr String s bs) = (length bs + String.length s)%nat.
Proof. induction bs as [| b bs IH]; cbn; [done | by rewrite IH]. Qed.

(** One step of the decoder: a code point, read from at least as many
    bytes as its own encoding takes, and the rest of the text. *)
Lemma chars_one (b1 : ascii) (s1 : string) :
  ∃ (c : Z) (k : nat) (rest : string),
    chars (String b1 s1) = c :: chars rest
    ∧ code_point c
    ∧ (length (encode c) ≤ k)%nat
    ∧ String.length (String b1 s1) = (k + String.length rest)%nat.
Proof.
  assert (Hbad : ∃ (c : Z) (k : nat) (rest : string),
             malformed :: chars s1 = c :: chars rest
             ∧ code_point c ∧ (length (encode c) ≤ k)%nat
             ∧ String.length (String b1 s1) = (k + String.length rest)%nat)
    by (exists malformed, 1%nat, s1; repeat split; cbn; unfold malformed; lia).
  rewrite chars_step. cbn zeta.
  pose proof (byte_range b1) as Hb1.
  destruct (Z.ltb_spec (byte b1) 128) as [H1 | H1].
  { exists (byte b1), 1%nat, s1. repeat split; try (cbn; lia).
    by rewrite (proj1 (proj2 (encode_length (byte b1)))). }
  destruct ((192 <=? byte b1) && (byte b1 <? 224)) eqn:H2.
  { apply andb_true_iff in H2 as [?%Z.leb_le ?%Z.ltb_lt].
    destruct s1 as [| b2 s2]; [done |].
    destruct (is_cont b2) eqn:Hc2; [| done].
    apply is_cont_range in Hc2.
    eexists _, 2%nat, s2. split; [done |].
    split; [unfold code_point; lia |].
    split; [apply encode_length; lia | cbn; lia]. }
  destruct ((224 <=? byte b1) && (byte b1 <? 240)) eqn:H3.
  { apply andb_true_iff in H3 as [?%Z.leb_le ?%Z.ltb_lt].
    destruct s1 as [| b2 [| b3 s3]]; [done | done |].
    destruct (is_cont b2) eqn:Hc2; [| done].
    destruct (is_cont b3) eqn:Hc3; [| done]. cbn [andb].
    apply is_cont_range in Hc2, Hc3.
    eexists _, 3%nat, s3. split; [done |].
    split; [unfold code_point; lia |].
    split; [apply encode_length; lia | cbn; lia]. }
  destruct ((240 <=? byte b1) && (byte b1 <? 248)) eqn:H4; [| done].
  apply andb_true_iff in H4 as [?%Z.leb_le ?%Z.ltb_lt].
  destruct s1 as [| b2 [| b3 [| b4 s4]]]; [done | done | done |].
  destruct (is_cont b2) eqn:Hc2; [| done].
  destruct (is_cont b3) eqn:Hc3; [| done].
  destruct (is_cont b4) eqn:Hc4; [| done]. cbn [andb].
  apply is_cont_range in Hc2, Hc3, Hc4.
  eexists _, 4%nat, s4. split; [done |].
  split; [unfold code_point; lia |].
  split; [apply encode_length | cbn; lia].
Qed.

Lemma chars_sound (s : string) :
  Forall code_point (chars s)
  ∧ (String.length (of_chars (chars s)) ≤ String.length s)%nat.
Proof.
  assert (∀ (n : nat) (t : string), (String.length t ≤ n)%nat →
            Forall code_point (chars t)
            ∧ (String.length (of_chars (chars t)) ≤ String.length t)%nat) as Hall;
    [| by apply (Hall (String.length s))].
  induction n as [| n IH]; intros t Hle.
  - destruct t; [by split | cbn in Hle; lia].
  - destruct t as [| b1 s1]; [split; [done | cbn; lia] |].
    destruct (chars_one b1 s1) as (c & k & rest & -> & Hc & Hk & Hlen).
    pose proof (encode_length c) as [Hpos _].
    destruct (IH rest) as [Hvalid Hrest]; [lia |].
    split; [by constructor |].
    cbn [of_chars]. rewrite prepend_length. lia.
Qed.

Lemma lstrip_sublist (l : list Z) : lstrip l `sublist_of` l.
Proof.
  induction l as [| c l IH]; cbn [lstrip]; [done |].
  destruct (is_space c); [by apply sublist_cons | done].
Qed.

Lemma sublist_rev (l k : list Z) : l `sublist_of` k → rev l `sublist_of` rev k.
Proof.
  induction 1 as [| x l k _ IH | x l k _ IH]; cbn [rev]; [done | |].
  - by apply sublist_app.
  - by apply sublist_inserts_r.
Qed.

Lemma rstrip_sublist (l : list Z) : rstrip l `sublist_of` l.
Proof.
  unfold rstrip. rewrite <- (rev_involutive l) at 2.
  apply sublist_rev, lstrip_sublist.
Qed.

Lemma stripped_sublist (l : list Z) : rstrip (lstrip l) `sublist_of` l.
Proof. etrans; [apply rstrip_sublist | apply lstrip_sublist]. Qed.

Lemma chars_strip (s : string) : chars (strip s) = rstrip (lstrip (chars s)).
Proof.
  unfold strip. apply chars_of_chars.
  apply Forall_forall. intros c Hc.
  destruct (chars_sound s) as [Hs _]. rewrite Forall_forall in Hs.
  apply Hs. eapply elem_of_sublist; [done | apply stripped_sublist].
Qed.

(** ** Payload normaliser *)

Lemma safe_get_field (d : gmap string pyval) (k : string) :
  safe_get (PDict d) [k] PNone = default PNone (d !! k).
Proof. cbn. by destruct (d !! k). Qed.

Lemma first_collection_skip (d : gmap string pyval) (k : string) (ks : list string) :
  skipped d k →
  first_collection (PDict d) (k :: ks) = first_collection (PDict d) ks.
Proof.
  intros Hk. cbn [first_collection]. rewrite safe_get_field.
  destruct (d !! k) as [[| | | | arr | |] |] eqn:Hd; cbn; try done.
  by rewrite (Hk arr Hd).
Qed.

Lemma first_collection_hit (d : gmap string pyval) (k : string) (ks : list string)
    (arr : list pyval) (x : pyval) :
  d !! k = Some (PList (arr ++ [x])) →
  first_collection (PDict d) (k :: ks) = Some x.
Proof.
  intros Hd. cbn [first_collection]. rewrite safe_get_field, Hd. cbn.
  by rewrite last_snoc.
Qed.

Lemma first_collection_found (d : gmap string pyval) (pre : list string) (k : string)
    (post : list string) (arr : list pyval) (x : pyval) :
  Forall (skipped d) pre → d !! k = Some (PList (arr ++ [x])) →
  first_collection (PDict d) (pre ++ k :: post) = Some x.
Proof.
  intros Hpre Hd. induction Hpre as [| k' pre Hk' _ IH].
  - by eapply first_collection_hit.
  - change ((k' :: pre) ++ k :: post) with (k' :: (pre ++ k :: post)).
    by rewrite first_collection_skip.
Qed.

Lemma first_collection_none (d : gmap string pyval) (ks : list string) :
  Forall (skipped d) ks → first_collection (PDict d) ks = None.
Proof.
  induction 1 as [| k ks Hk _ IH]; [done |].
  by rewrite first_collection_skip.
Qed.

Lemma or_none_nonempty (s : string) : or_none s ≠ Some "".
Proof. unfold or_none. case_bool_decide; congruence. Qed.

Lemma or_none_Some (s : string) : s ≠ "" → or_none s = Some s.
Proof. intros Hs. unfold or_none. by rewrite bool_decide_false. Qed.

Lemma in_range_spec (n : Z) : in_range n = true ↔ 0 ≤ n ≤ 99.
Proof. unfold in_range. rewrite andb_true_iff, !Z.leb_le. tauto. Qed.

Section NormalizerProperties.

Variable json_loads : string → option pyval.
Variable container_str : pyval → string.

#[local] Abbreviation parse := (parse_number_from_payload json_loads container_str).
#[local] Abbreviation scan := (scan_candidates container_str).

(** Every event the first loop builds holds a number in range, the issue
    resolved from the mapping, and the mapping itself. *)
Lemma scan_candidates_event (data : pyval) (cs : list pyval) (ev : event) :
  scan data cs = Some ev →
  0 ≤ int_val (number ev) ≤ 99
  ∧ issue ev = resolve_issue container_str data
  ∧ raw ev = data.
Proof.
  induction cs as [| c cs IH]; cbn [scan_candidates]; [done |].
  destruct (as_int c) as [n |].
  - destruct (in_range (int_val n)) eqn:Hr; [| done].
    intros [= <-]. by apply in_range_spec in Hr.
  - destruct c as [| | | s | | |]; try done.
    destruct (search_digits_end (strip s)) as [n |]; [| done].
    destruct (in_range n) eqn:Hr; [| done].
    intros [= <-]. by apply in_range_spec in Hr.
Qed.

(** More fuel never changes an answer. *)
Lemma parse_fuel_mono (fuel : nat) (data : pyval) (r : option event) :
  parse fuel data = Return r → parse (S fuel) data = Return r.
Proof.
  revert data. induction fuel as [| fuel IH]; intros data; [done |].
  cbn [parse_number_from_payload].
  destruct data as [| | | str | l | d |]; try done.
  - destruct (if looks_like_json (strip str) then json_loads (strip str) else None);
      [apply IH | done].
  - destruct (last l); [apply IH | done].
  - destruct (scan_candidates _ _ _); [done |].
    destruct (first_collection _ _); [apply IH | done].
Qed.

Lemma parse_fuel_le (fuel fuel' : nat) (data : pyval) (r : option event) :
  (fuel ≤ fuel')%nat → parse fuel data = Return r → parse fuel' data = Return r.
Proof. induction 1; [done |]. intros Hr. by apply parse_fuel_mono, IHle. Qed.

Lemma scan_candidates_int (data c : pyval) (cs : list pyval) (n : pyint) :
  as_int c = Some n → in_range (int_val n) = true →
  scan data (c :: cs) =
    Some {| issue := resolve_issue container_str data; number := n; raw := data |}.
Proof. intros Hc Hn. cbn [scan_candidates]. by rewrite Hc, Hn. Qed.

(** A valid integer under the key number is found by the first loop. *)
Lemma scan_candidates_number (d : gmap string pyval) (n : Z) :
  d !! "number" = Some (PInt n) → 0 ≤ n ≤ 99 →
  scan (PDict d) (candidates (PDict d)) =
    Some {| issue := resolve_issue container_str (PDict d);
            number := IInt n; raw := PDict d |}.
Proof.
  intros Hd Hn%in_range_spec. unfold candidates.
  apply scan_candidates_int; [| done].
  by rewrite safe_get_field, Hd.
Qed.

Lemma parse_in_range (fuel : nat) (data : pyval) (ev : event) :
  parse fuel data = Return (Some ev) → 0 ≤ int_val (number ev) ≤ 99.
Proof.
  revert data. induction fuel as [| fuel IH]; intros data; [done |].
  cbn [parse_number_from_payload].
  destruct data as [| | | str | l | d |]; try done.
  - destruct (if looks_like_json (strip str) then json_loads (strip str) else None);
      [apply IH |].
    destruct (search_digits_spaces_end (strip str)) as [n |]; [| done].
    destruct (in_range n) eqn:Hr; [| done].
    intros [= <-]. by apply in_range_spec in Hr.
  - destruct (last l); [apply IH | done].
  - destruct (scan_candidates _ _ _) as [ev' |] eqn:Hscan.
    + intros [= <-]. by apply scan_candidates_event in Hscan as [? _].
    + destruct (first_collection _ _); [apply IH | done].
Qed.

(** C7. Whatever the raw message, an event returned by
    [parse_number_from_payload] holds a number in [0,99]; and the mapping
    with the single entry number = 150 yields no event. *)
Theorem number_in_range :
  (∀ (fuel : nat) (data : pyval) (ev : event),
      parse fuel data = Return (Some ev) → 0 ≤ int_val (number ev) ≤ 99)
  ∧ (∀ fuel : nat, parse (S fuel) (PDict {[ "number" := PInt 150 ]}) = Return None).
Proof.
  split.
  - apply parse_in_range.
  - intros fuel. vm_compute. reflexivity.
Qed.

Lemma parse_plain_string (fuel : nat) (str : string) (g : list Z) :
  looks_like_json (strip str) = false →
  re_search (match_digits spaces_dollar) (chars (strip str)) = Some g →
  0 ≤ int_of_digits g ≤ 99 →
  parse (S fuel) (PStr str) =
    Return (Some {| issue := None; number := IInt (int_of_digits g); raw := PStr str |}).
Proof.
  intros Hj Hg Hr. cbn [parse_number_from_payload].
  rewrite Hj. unfold search_digits_spaces_end. rewrite Hg. cbn [fmap option_fmap option_map].
  apply in_range_spec in Hr. by rewrite Hr.
Qed.

(** A string that looks like JSON and decodes is answered by the decoded
    value alone; the trailing digits are not tried afterwards. *)
Lemma parse_json_string (fuel : nat) (str : string) (v : pyval) :
  looks_like_json (strip str) = true → json_loads (strip str) = Some v →
  parse (S fuel) (PStr str) = parse fuel v.
Proof. intros Hj Hv. cbn [parse_number_from_payload]. by rewrite Hj, Hv. Qed.

(** C8. A string that does not look like JSON yields the number written by
    its last one or two trailing digits (after [strip]), with no issue:
    "round result: 42" gives 42, "value: 123" gives 23; in general two
    final digits give their two-digit value, and a single final digit not
    preceded by a digit gives that digit.  Digits are the decimal digits of
    any script, as [\d] and [int] take them. *)
Theorem trailing_digit_extraction :
  (∀ fuel : nat,
      parse (S fuel) (PStr "round result: 42") =
        Return (Some {| issue := None; number := IInt 42; raw := PStr "round result: 42" |}))
  ∧ (∀ fuel : nat,
      parse (S fuel) (PStr "value: 123") =
        Return (Some {| issue := None; number := IInt 23; raw := PStr "value: 123" |}))
  ∧ (∀ (fuel : nat) (str : string) (p : list Z) (d1 d2 : Z),
      looks_like_json (strip str) = false →
      chars (strip str) = p ++ [d1; d2] →
      is_digit d1 = true → is_digit d2 = true →
      parse (S fuel) (PStr str) =
        Return (Some {| issue := None;
                        number := IInt (10 * digit_value d1 + digit_value d2);
                        raw := PStr str |}))
  ∧ (∀ (fuel : nat) (str : string) (p : list Z) (d : Z),
      looks_like_json (strip str) = false →
      chars (strip str) = p ++ [d] →
      is_digit d = true →
      (∀ c, last p = Some c → is_digit c = false) →
      parse (S fuel) (PStr str) =
        Return (Some {| issue := None; number := IInt (digit_value d); raw := PStr str |})).
Proof.
  split; [| split; [| split]].
  - intros fuel. vm_compute. reflexivity.
  - intros fuel. vm_compute. reflexivity.
  - intros fuel str p d1 d2 Hj Hs H1 H2.
    rewrite <- int_of_two_digits. apply parse_plain_string; [done | |].
    + rewrite Hs. by apply re_search_two_digits; [apply spaces_dollar_anchor | |].
    + rewrite int_of_two_digits.
      apply is_digit_value in H1, H2. lia.
  - intros fuel str p d Hj Hs Hd Hp.
    rewrite <- int_of_one_digit. apply parse_plain_string; [done | |].
    + rewrite Hs. by apply re_search_one_digit; [apply spaces_dollar_anchor | |].
    + rewrite int_of_one_digit. apply is_digit_value in Hd. lia.
Qed.

Lemma resolve_issue_fields (d : gmap string pyval) :
  resolve_issue container_str (PDict d) =
    or_none (py_str container_str
               (py_or (py_or (py_or (default PNone (d !! "issue"))
                                    (default PNone (d !! "expect")))
                             (default PNone (d !! "period")))
                      (PStr ""))).
Proof. unfold resolve_issue. by rewrite !safe_get_field. Qed.

(** C9. When the first loop finds a valid number in a mapping, the event is
    returned with its issue taken from the fields issue, expect, period in
    this order, the first one that is present and non-empty (truthy)
    winning; when all three are missing or empty the issue is absent; the
    issue is never the empty string. *)
Theorem issue_resolution (d : gmap string pyval) (ev : event) :
  scan (PDict d) (candidates (PDict d)) = Some ev →
  (∀ fuel : nat, parse (S fuel) (PDict d) = Return (Some ev))
  ∧ issue ev ≠ Some ""
  ∧ (∀ v, d !! "issue" = Some v → truthy v = true →
       issue ev = or_none (py_str container_str v))
  ∧ (∀ v, truthy (default PNone (d !! "issue")) = false →
       d !! "expect" = Some v → truthy v = true →
       issue ev = or_none (py_str container_str v))
  ∧ (∀ v, truthy (default PNone (d !! "issue")) = false →
       truthy (default PNone (d !! "expect")) = false →
       d !! "period" = Some v → truthy v = true →
       issue ev = or_none (py_str container_str v))
  ∧ (truthy (default PNone (d !! "issue")) = false →
     truthy (default PNone (d !! "expect")) = false →
     truthy (default PNone (d !! "period")) = false →
     issue ev = None)
  ∧ ((∀ k, k ∈ ["issue"; "expect"; "period"] →
          d !! k = None ∨ d !! k = Some (PStr "")) →
     issue ev = None).
Proof.
  intros Hscan.
  destruct (scan_candidates_event _ _ _ Hscan) as (_ & Hissue & _).
  rewrite resolve_issue_fields in Hissue.
  assert (Hnone : truthy (default PNone (d !! "issue")) = false →
                  truthy (default PNone (d !! "expect")) = false →
                  truthy (default PNone (d !! "period")) = false →
                  issue ev = None).
  { intros Hi He Hp. rewrite Hissue. unfold py_or. by rewrite Hi, He, Hp. }
  repeat split.
  - intros fuel. cbn [parse_number_from_payload]. by rewrite Hscan.
  - rewrite Hissue. apply or_none_nonempty.
  - intros v Hv Ht. rewrite Hissue, Hv. unfold py_or; cbn [from_option id].
    by rewrite !Ht.
  - intros v Hi Hv Ht. rewrite Hissue, Hv. unfold py_or; cbn [from_option id].
    by rewrite !Hi, !Ht.
  - intros v Hi He Hv Ht. rewrite Hissue, Hv. unfold py_or; cbn [from_option id].
    by rewrite !Hi, !He, !Ht.
  - done.
  - intros Hall.
    assert (Hfalsy : ∀ k, k ∈ ["issue"; "expect"; "period"] →
                          truthy (default PNone (d !! k)) = false).
    { intros k Hk. by destruct (Hall k Hk) as [-> | ->]. }
    apply Hnone; apply Hfalsy; repeat constructor.
Qed.

(** C10. When the first loop of a mapping finds no valid number, the keys
    list, rows, data, resultList are tried in this order; keys that are
    missing, not bound to a list or bound to an empty list are passed over,
    and the first key bound to a non-empty list settles the answer: it is
    that of one recursive call on the last element, even when this is no
    event, and later keys are not looked at.  With no such key the answer
    is no event. *)
Theorem collection_recursion :
  (∀ (d : gmap string pyval) (fuel : nat) (pre : list string) (k : string)
     (post : list string) (arr : list pyval) (x : pyval),
      scan (PDict d) (candidates (PDict d)) = None →
      collection_keys = pre ++ k :: post →
      Forall (skipped d) pre →
      d !! k = Some (PList (arr ++ [x])) →
      parse (S fuel) (PDict d) = parse fuel x)
  ∧ (∀ (d : gmap string pyval) (fuel : nat),
      scan (PDict d) (candidates (PDict d)) = None →
      Forall (skipped d) collection_keys →
      parse (S fuel) (PDict d) = Return None)
  ∧ (∀ fuel : nat,
      parse (S (S fuel))
        (PDict (<[ "list" := PList [PDict {[ "number" := PInt 150 ]}] ]>
                  {[ "rows" := PList [PDict {[ "number" := PInt 3 ]}] ]}))
      = Return None)
  ∧ (∀ fuel : nat,
      parse (S (S fuel))
        (PDict (<[ "list" := PList [] ]>
                  {[ "rows" := PList [PDict {[ "number" := PInt 3 ]}] ]}))
      = Return (Some {| issue := None; number := IInt 3;
                        raw := PDict {[ "number" := PInt 3 ]} |})).
Proof.
  split; [| split; [| split]].
  - intros d fuel pre k post arr x Hscan Hkeys Hpre Hd.
    cbn [parse_number_from_payload]. rewrite Hscan, Hkeys.
    by rewrite (first_collection_found d pre k post arr x).
  - intros d fuel Hscan Hall.
    cbn [parse_number_from_payload]. by rewrite Hscan, first_collection_none.
  - intros fuel. vm_compute. reflexivity.
  - intros fuel. vm_compute. reflexivity.
Qed.

End NormalizerProperties.

(** ** The properties at sample payloads *)

Lemma number_in_range_witness :
  0 ≤ int_val (number sample_event) ≤ 99.
Proof.
  apply (proj1 (number_in_range json_raises container_dots)
           1%nat (PDict sample_fields) sample_event).
  vm_compute. reflexivity.
Defined.

Lemma trailing_digit_extraction_witness :
  parse_number_from_payload json_raises container_dots 1 (PStr " round 7 result: 42  ")
    = Return (Some {| issue := None; number := IInt 42;
                      raw := PStr " round 7 result: 42  " |})
  ∧ parse_number_from_payload json_raises container_dots 1 (PStr "draw 7")
    = Return (Some {| issue := None; number := IInt 7; raw := PStr "draw 7" |})
  ∧ parse_number_from_payload json_raises container_dots 1 (PStr "x٣4")
    = Return (Some {| issue := None; number := IInt 34; raw := PStr "x٣4" |})
  ∧ parse_number_from_payload json_raises container_dots 1 (PStr "result ٣　")
    = Return (Some {| issue := None; number := IInt 3; raw := PStr "result ٣　" |}).
Proof.
  destruct (trailing_digit_extraction json_raises container_dots)
    as (_ & _ & Htwo & Hone).
  split; [| split; [| split]].
  - apply (Htwo 0%nat " round 7 result: 42  " (chars "round 7 result: ") 52 50);
      vm_compute; reflexivity.
  - apply (Hone 0%nat "draw 7" (chars "draw ") 55);
      [vm_compute; reflexivity | vm_compute; reflexivity | vm_compute; reflexivity |].
    intros c Hc. vm_compute in Hc. injection Hc as <-. vm_compute. reflexivity.
  - apply (Htwo 0%nat "x٣4" (chars "x") 1635 52); vm_compute; reflexivity.
  - apply (Hone 0%nat "result ٣　" (chars "result ") 1635);
      [vm_compute; reflexivity | vm_compute; reflexivity | vm_compute; reflexivity |].
    intros c Hc. vm_compute in Hc. injection Hc as <-. vm_compute. reflexivity.
Defined.

Lemma issue_resolution_witness :
  parse_number_from_payload json_raises container_dots 1 (PDict sample_fields)
    = Return (Some sample_event)
  ∧ issue sample_event = or_none "E9".
Proof.
  destruct (issue_resolution json_raises container_dots sample_fields sample_event)
    as (Hparse & _ & _ & Hexpect & _).
  { vm_compute. reflexivity. }
  split.
  - apply Hparse.
  - apply (Hexpect (PStr "E9")); vm_compute; reflexivity.
Defined.

Lemma collection_recursion_witness :
  parse_number_from_payload json_raises container_dots 2 (PDict sample_history)
    = parse_number_from_payload json_raises container_dots 1 (PDict {[ "number" := PInt 8 ]}).
Proof.
  destruct (collection_recursion json_raises container_dots) as (Hrec & _).
  apply (Hrec sample_history 1%nat ["list"] "rows" ["data"; "resultList"]
           [PDict {[ "number" := PInt 3 ]}] (PDict {[ "number" := PInt 8 ]})).
  - vm_compute. reflexivity.
  - reflexivity.
  - constructor; [| constructor].
    intros arr Harr. vm_compute in Harr. by injection Harr as <-.
  - vm_compute. reflexivity.
Defined.

(** * Further properties of the code *)

(** ** [strip] and the two searches *)

Lemma lstrip_head (l : list Z) (c : Z) (r : list Z) :
  lstrip l = c :: r → is_space c = false.
Proof.
  induction l as [| x l IH]; cbn [lstrip]; [done |].
  destruct (is_space x) eqn:Hx; [done |]. by intros [= <- _].
Qed.

Lemma lstrip_length (l : list Z) : (length (lstrip l) ≤ length l)%nat.
Proof.
  induction l as [| x l IH]; cbn [lstrip]; [done |].
  destruct (is_space x); cbn [length]; lia.
Qed.

Lemma rstrip_clean (l : list Z) : clean (rstrip l).
Proof.
  unfold clean, rstrip. intros c Hc.
  destruct (lstrip (rev l)) as [| x r] eqn:Hl; [done |].
  cbn [rev] in Hc. rewrite last_snoc in Hc. injection Hc as <-.
  by eapply lstrip_head.
Qed.

Lemma rstrip_length (l : list Z) : (length (rstrip l) ≤ length l)%nat.
Proof.
  unfold rstrip. rewrite length_rev.
  etrans; [apply lstrip_length |]. by rewrite length_rev.
Qed.

Lemma strip_clean (s : string) : clean (chars (strip s)).
Proof. rewrite chars_strip. apply rstrip_clean. Qed.

Lemma of_chars_sublist (l k : list Z) :
  l `sublist_of` k → (String.length (of_chars l) ≤ String.length (of_chars k))%nat.
Proof.
  induction 1 as [| x l k _ IH | x l k _ IH]; [done | |];
    cbn [of_chars]; rewrite ?prepend_length; lia.
Qed.

(** [strip] never makes a text longer, in bytes. *)
Lemma strip_length (s : string) : (String.length (strip s) ≤ String.length s)%nat.
Proof.
  unfold strip. etrans; [apply of_chars_sublist, stripped_sublist |].
  apply chars_sound.
Qed.

Lemma clean_tail (x : Z) (r : list Z) : clean (x :: r) → clean r.
Proof.
  intros Hc c Hr. apply Hc. destruct r as [| y r]; [done |].
  by rewrite last_cons_cons.
Qed.

Lemma at_dollar_clean (x : Z) (r : list Z) :
  clean (x :: r) → at_dollar (x :: r) = false.
Proof.
  intros Hc. destruct r as [| y r]; [| done]. cbn [at_dollar].
  apply Z.eqb_neq. intros ->.
  specialize (Hc 10 eq_refl). by rewrite newline_is_space in Hc.
Qed.

Lemma spaces_dollar_cons (x : Z) (r : list Z) :
  spaces_dollar (x :: r) = at_dollar (x :: r) || (is_space x && spaces_dollar r).
Proof. reflexivity. Qed.

Lemma spaces_dollar_clean (x : Z) (r : list Z) :
  clean (x :: r) → spaces_dollar (x :: r) = false.
Proof.
  revert x. induction r as [| y r IH]; intros x Hc; rewrite spaces_dollar_cons.
  - rewrite (at_dollar_clean x []), (Hc x) by done. done.
  - rewrite (at_dollar_clean x (y :: r)) by done.
    rewrite (IH y) by by eapply clean_tail.
    by rewrite andb_false_r.
Qed.

Lemma tails_agree (l : list Z) : clean l → spaces_dollar l = at_dollar l.
Proof.
  destruct l as [| x r]; [done |]. intros Hc.
  by rewrite spaces_dollar_clean, at_dollar_clean.
Qed.

Lemma match_digits_agree (l : list Z) :
  clean l → match_digits spaces_dollar l = match_digits at_dollar l.
Proof.
  intros Hc. destruct l as [| d1 [| d2 r']]; [done | done |].
  cbn [match_digits].
  assert (clean (d2 :: r')) as Hr by by eapply clean_tail.
  assert (clean r') as Hr' by by eapply clean_tail.
  by rewrite (tails_agree r'), (tails_agree (d2 :: r')).
Qed.

Lemma re_search_agree (l : list Z) :
  clean l →
  re_search (match_digits spaces_dollar) l = re_search (match_digits at_dollar) l.
Proof.
  induction l as [| x r IH]; intros Hc; [done |].
  cbn [re_search]. rewrite (match_digits_agree (x :: r)) by done.
  destruct (match_digits at_dollar (x :: r)); [done |].
  apply IH. by eapply clean_tail.
Qed.

(** The digit group a match returns is one or two digits. *)
Lemma match_digits_group (tail : list Z → bool) (l g : list Z) :
  match_digits tail l = Some g →
  (∃ d, g = [d] ∧ is_digit d = true)
  ∨ (∃ d1 d2, g = [d1; d2] ∧ is_digit d1 = true ∧ is_digit d2 = true).
Proof.
  destruct l as [| d1 r]; [done |]. cbn [match_digits].
  destruct (is_digit d1) eqn:H1; [| done].
  destruct r as [| d2 r'].
  - destruct (tail []); [| done]. intros [= <-]. left; eauto.
  - destruct (is_digit d2) eqn:H2; cbn [andb].
    + destruct (tail r').
      * intros [= <-]. right; eauto.
      * destruct (tail (d2 :: r')); [| done]. intros [= <-]. left; eauto.
    + destruct (tail (d2 :: r')); [| done]. intros [= <-]. left; eauto.
Qed.

Lemma re_search_group (tail : list Z → bool) (l g : list Z) :
  re_search (match_digits tail) l = Some g → 0 ≤ int_of_digits g ≤ 99.
Proof.
  induction l as [| x r IH]; cbn [re_search].
  - destruct (match_digits tail []) eqn:Hm; [| done]. done.
  - destruct (match_digits tail (x :: r)) as [g' |] eqn:Hm; [| done].
    intros [= ->].
    apply match_digits_group in Hm
      as [(d & -> & Hd%is_digit_value) | (d1 & d2 & -> & H1%is_digit_value & H2%is_digit_value)].
    + rewrite int_of_one_digit. lia.
    + rewrite int_of_two_digits. lia.
Qed.

Lemma searched_digits_end_range (s : string) (n : Z) :
  search_digits_end s = Some n → in_range n = true.
Proof.
  unfold search_digits_end. intros (g & Hg & ->)%fmap_Some.
  apply in_range_spec. by eapply re_search_group.
Qed.

(** X1. A number extracted by either regular expression is always within
    [0,99], whatever the text: the range test that follows a match can
    never reject. *)
Theorem searched_number_in_range (s : string) (n : Z) :
  search_digits_end s = Some n ∨ search_digits_spaces_end s = Some n →
  in_range n = true.
Proof.
  unfold search_digits_end, search_digits_spaces_end.
  intros [Hn | Hn]; apply fmap_Some in Hn as (g & Hg & ->);
    apply in_range_spec; by eapply re_search_group.
Qed.

Lemma searched_number_in_range_witness : in_range 23 = true.
Proof.
  apply (searched_number_in_range "value: 123" 23). left. vm_compute. reflexivity.
Defined.

(** X2. On a stripped text the two regular expressions find the same
    number: the optional blanks of the second one never match anything. *)
Theorem searches_agree_after_strip (s : string) :
  search_digits_spaces_end (strip s) = search_digits_end (strip s).
Proof.
  unfold search_digits_spaces_end, search_digits_end.
  by rewrite re_search_agree by apply strip_clean.
Qed.

Lemma re_search_clean_last (l g : list Z) :
  clean l → re_search (match_digits at_dollar) l = Some g →
  ∃ c, last l = Some c ∧ is_digit c = true.
Proof.
  induction l as [| x r IH]; intros Hc; cbn [re_search]; [done |].
  destruct (match_digits at_dollar (x :: r)) as [g' |] eqn:Hm.
  - intros _. cbn [match_digits] in Hm.
    destruct (is_digit x) eqn:Hx; [| done].
    destruct r as [| y r']; [by exists x |].
    assert (clean (y :: r')) as Hr by by eapply clean_tail.
    rewrite (at_dollar_clean y r') in Hm by done.
    destruct (is_digit y) eqn:Hy; cbn [andb] in Hm; [| done].
    destruct r' as [| z r'']; [by exists y |].
    rewrite (at_dollar_clean z r'') in Hm by by eapply clean_tail.
    done.
  - intros Hg. destruct r as [| y r']; [done |].
    rewrite last_cons_cons. apply IH; [by eapply clean_tail | done].
Qed.

Lemma re_search_last_digit (tail : list Z → bool) (l : list Z) (c : Z) :
  end_anchor tail → last l = Some c → is_digit c = true →
  ∃ g, re_search (match_digits tail) l = Some g ∧ last g = Some c.
Proof.
  intros Ht [p ->]%last_Some Hc.
  destruct (last p) as [c' |] eqn:Hp.
  - destruct (is_digit c') eqn:Hc'.
    + apply last_Some in Hp as [p' ->]. rewrite <- app_assoc. cbn [app].
      exists [c'; c]. by rewrite re_search_two_digits.
    + exists [c]. rewrite re_search_one_digit; [done.. |].
      intros c0 Hc0. rewrite Hp in Hc0. by injection Hc0 as <-.
  - exists [c]. rewrite re_search_one_digit; [done.. |].
    intros c0 Hc0. by rewrite Hp in Hc0.
Qed.

(** A text that ends in the closing bracket or brace of the JSON test does
    not end in a digit. *)
Lemma looks_like_json_last (s : string) :
  looks_like_json s = true →
  ∃ c, last (chars s) = Some c ∧ is_digit c = false.
Proof.
  unfold looks_like_json, endswith.
  destruct (last (chars s)) as [c |]; [| by rewrite !andb_false_r].
  intros H. exists c. split; [done |].
  apply orb_true_iff in H as [H | H]; apply andb_true_iff in H as [_ H];
    apply bool_decide_eq_true in H as ->; reflexivity.
Qed.

Section NormalizerFurther.

Variable json_loads : string → option pyval.
Variable container_str : pyval → string.

#[local] Abbreviation parse := (parse_number_from_payload json_loads container_str).
#[local] Abbreviation scan := (scan_candidates container_str).

(** X3. A string that does not look like JSON yields an event exactly when
    its stripped text ends in a digit: then the event has no issue, a
    number in [0,99] and the string itself as raw value; otherwise there
    is no event. *)
Theorem plain_string_event (fuel : nat) (str : string) :
  looks_like_json (strip str) = false →
  ((∃ c, last (chars (strip str)) = Some c ∧ is_digit c = true) →
   ∃ n, 0 ≤ n ≤ 99
        ∧ parse (S fuel) (PStr str) =
            Return (Some {| issue := None; number := IInt n; raw := PStr str |}))
  ∧ ((∀ c, last (chars (strip str)) = Some c → is_digit c = false) →
     parse (S fuel) (PStr str) = Return None).
Proof.
  intros Hj. cbn [parse_number_from_payload]. rewrite Hj.
  unfold search_digits_spaces_end. split.
  - intros (c & Hlast & Hc).
    destruct (re_search_last_digit spaces_dollar _ c spaces_dollar_anchor Hlast Hc)
      as (g & Hg & _).
    rewrite Hg. cbn [fmap option_fmap option_map].
    pose proof (re_search_group _ _ _ Hg) as Hr.
    exists (int_of_digits g). split; [done |].
    apply in_range_spec in Hr. by rewrite Hr.
  - intros Hno.
    destruct (re_search _ _) as [g |] eqn:Hg; [| done].
    rewrite re_search_agree in Hg by apply strip_clean.
    apply re_search_clean_last in Hg as (c & Hlast & Hc); [| apply strip_clean].
    rewrite (Hno c Hlast) in Hc. done.
Qed.

(** X4. A string that looks like JSON is answered by the decoded value
    alone when it decodes, and yields no event when decoding raises: the
    search for final digits cannot succeed on a text that ends in a
    bracket or a brace. *)
Theorem json_string_event (fuel : nat) (str : string) :
  looks_like_json (strip str) = true →
  (∀ v, json_loads (strip str) = Some v → parse (S fuel) (PStr str) = parse fuel v)
  ∧ (json_loads (strip str) = None → parse (S fuel) (PStr str) = Return None).
Proof.
  intros Hj. cbn [parse_number_from_payload]. rewrite Hj. split.
  - by intros v ->.
  - intros ->. unfold search_digits_spaces_end.
    destruct (re_search _ _) as [g |] eqn:Hg; [| done].
    rewrite re_search_agree in Hg by apply strip_clean.
    apply re_search_clean_last in Hg as (c & Hlast & Hc); [| apply strip_clean].
    apply looks_like_json_last in Hj as (c' & Hlast' & Hc').
    congruence.
Qed.

(** X5. An integer in [0,99] under the key number settles the answer,
    whatever else the mapping holds: the event carries this number, the
    mapping as raw value and the issue resolved from the mapping. *)
Theorem number_field_wins (fuel : nat) (d : gmap string pyval) (n : Z) :
  d !! "number" = Some (PInt n) → 0 ≤ n ≤ 99 →
  parse (S fuel) (PDict d) =
    Return (Some {| issue := resolve_issue container_str (PDict d);
                    number := IInt n; raw := PDict d |}).
Proof.
  intros Hd Hn. cbn [parse_number_from_payload].
  by rewrite (scan_candidates_number container_str d n).
Qed.

Lemma scan_candidates_rejected (data c : pyval) (cs : list pyval) :
  rejected c → scan data (c :: cs) = scan data cs.
Proof.
  intros [Hint Hstr]. cbn [scan_candidates].
  destruct (as_int c) as [n |] eqn:Hc.
  - by rewrite (Hint n).
  - destruct c as [| | | s | | |]; try done. by rewrite (Hstr s).
Qed.

Lemma scan_candidates_str (data : pyval) (s : string) (cs : list pyval) (n : Z) :
  search_digits_end (strip s) = Some n →
  scan data (PStr s :: cs) =
    Some {| issue := resolve_issue container_str data; number := IInt n; raw := data |}.
Proof.
  intros Hs. cbn [scan_candidates as_int]. rewrite Hs.
  by rewrite (searched_digits_end_range _ _ Hs).
Qed.

(** X6. The first loop takes the first valid candidate in the order of the
    list: candidates before it that are out of range, without final
    digits or of another type do not stop the search, and candidates
    after it are not looked at.  With no valid candidate the loop finds
    nothing. *)
Theorem first_valid_candidate (data : pyval) (pre post : list pyval) :
  Forall rejected pre →
  (∀ (c : pyval) (n : pyint),
      as_int c = Some n → 0 ≤ int_val n ≤ 99 →
      scan data (pre ++ c :: post) =
        Some {| issue := resolve_issue container_str data; number := n; raw := data |})
  ∧ (∀ (s : string) (n : Z),
      search_digits_end (strip s) = Some n →
      scan data (pre ++ PStr s :: post) =
        Some {| issue := resolve_issue container_str data; number := IInt n; raw := data |})
  ∧ scan data pre = None.
Proof.
  induction 1 as [| c0 pre Hc0 _ (IHint & IHstr & IHnone)].
  - repeat split.
    + intros c n Hc Hn%in_range_spec. by apply scan_candidates_int.
    + intros s n Hs. by apply scan_candidates_str.
  - repeat split.
    + intros c n Hc Hn. cbn [app]. rewrite scan_candidates_rejected by done. eauto.
    + intros s n Hs. cbn [app]. rewrite scan_candidates_rejected by done. eauto.
    + by rewrite scan_candidates_rejected.
Qed.

(** X7. A boolean under the key number passes the integer test: the event
    keeps the boolean, which counts as 1 or 0, and its fallback dedup key
    is spelt True or False, so that [True] and [1] arriving in the same
    minute are two different events. *)
Theorem boolean_number (fuel : nat) (d : gmap string pyval) (b : bool) (clk : clock) :
  d !! "number" = Some (PBool b) →
  parse (S fuel) (PDict d) =
    Return (Some {| issue := resolve_issue container_str (PDict d);
                    number := IBool b; raw := PDict d |})
  ∧ int_val (IBool b) = (if b then 1 else 0)
  ∧ dedup_key None (IBool b) clk ≠ dedup_key None (IInt (int_val (IBool b))) clk.
Proof.
  intros Hd. split; [| split].
  - cbn [parse_number_from_payload]. unfold candidates.
    rewrite (scan_candidates_int container_str (PDict d) _ _ (IBool b)); [done | |].
    + by rewrite safe_get_field, Hd.
    + by destruct b.
  - reflexivity.
  - destruct b; cbn; discriminate.
Qed.

(** X8. Values that are neither strings, lists nor mappings yield no
    event: a bare integer is not an event even when it is in range, nor is
    a list that ends in one; the empty list, the empty mapping and the
    empty string yield no event either. *)
Theorem no_event_payloads (fuel : nat) :
  (∀ v, atom v = true → parse (S fuel) v = Return None)
  ∧ (∀ l v, atom v = true → parse (S (S fuel)) (PList (l ++ [v])) = Return None)
  ∧ parse (S fuel) (PList []) = Return None
  ∧ parse (S fuel) (PDict ∅) = Return None
  ∧ parse (S fuel) (PStr "") = Return None.
Proof.
  assert (Hatom : ∀ f v, atom v = true → parse (S f) v = Return None)
    by (intros f [] ?; done).
  split; [| split; [| split; [| split]]].
  - apply Hatom.
  - intros l v Hv. cbn [parse_number_from_payload]. rewrite last_snoc.
    by apply Hatom.
  - reflexivity.
  - vm_compute. reflexivity.
  - vm_compute. reflexivity.
Qed.

(** X9. Every event the function returns was found either in a mapping or
    in a string, which is its raw value.  Found in a mapping, its issue is
    resolved from that very mapping, not from an enclosing one; found in a
    string, it has no issue and its number is a plain integer.  In no case
    is the issue the empty string. *)
Theorem event_shape (fuel : nat) (data : pyval) (ev : event) :
  parse fuel data = Return (Some ev) →
  issue ev ≠ Some ""
  ∧ ((∃ d, raw ev = PDict d ∧ issue ev = resolve_issue container_str (PDict d))
     ∨ (∃ s n, raw ev = PStr s ∧ issue ev = None ∧ number ev = IInt n)).
Proof.
  revert data. induction fuel as [| fuel IH]; intros data; [done |].
  cbn [parse_number_from_payload].
  destruct data as [| | | str | l | d |]; try done.
  - destruct (if looks_like_json (strip str) then json_loads (strip str) else None);
      [apply IH |].
    destruct (search_digits_spaces_end (strip str)) as [n |]; [| done].
    destruct (in_range n); [| done].
    intros [= <-]. split; [done |]. right. by exists str, n.
  - destruct (last l); [apply IH | done].
  - destruct (scan_candidates _ _ _) as [ev' |] eqn:Hscan.
    + intros [= <-]. apply scan_candidates_event in Hscan as (_ & Hi & Hr).
      split.
      * rewrite Hi. apply or_none_nonempty.
      * left. exists d. by rewrite Hi.
    + destruct (first_collection _ _); [apply IH | done].
Qed.

End NormalizerFurther.

Lemma first_valid_candidate_witness :
  scan_candidates container_dots (PDict sample_fallback)
    (candidates (PDict sample_fallback))
  = Some {| issue := None; number := IInt 42; raw := PDict sample_fallback |}.
Proof.
  destruct (first_valid_candidate container_dots (PDict sample_fallback)
              [PInt 150] [PNone; PInt 7; PNone; PNone]) as (_ & Hstr & _).
  - constructor; [| constructor]. split.
    + intros n [= <-]. reflexivity.
    + intros s [=].
  - apply (Hstr "no. 42" 42). vm_compute. reflexivity.
Defined.

Lemma number_field_wins_witness :
  parse_number_from_payload json_raises container_dots 1 (PDict sample_fields)
  = Return (Some {| issue := resolve_issue container_dots (PDict sample_fields);
                    number := IInt 7; raw := PDict sample_fields |}).
Proof.
  apply (number_field_wins json_raises container_dots 0%nat sample_fields 7);
    [vm_compute; reflexivity | lia].
Defined.

Lemma event_shape_witness :
  let ev := {| issue := None; number := IInt 3; raw := PDict {[ "number" := PInt 3 ]} |} in
  issue ev ≠ Some ""
  ∧ ((∃ d, raw ev = PDict d ∧ issue ev = resolve_issue container_dots (PDict d))
     ∨ (∃ s n, raw ev = PStr s ∧ issue ev = None ∧ number ev = IInt n)).
Proof.
  apply (event_shape json_raises container_dots 2 (PDict sample_wrapped)).
  vm_compute. reflexivity.
Defined.

Lemma plain_string_event_witness :
  (∃ n, 0 ≤ n ≤ 99
        ∧ parse_number_from_payload json_raises container_dots 1 (PStr " draw 7 ")
          = Return (Some {| issue := None; number := IInt n; raw := PStr " draw 7 " |}))
  ∧ (∃ n, 0 ≤ n ≤ 99
          ∧ parse_number_from_payload json_raises container_dots 1 (PStr "r ٤٢　")
            = Return (Some {| issue := None; number := IInt n; raw := PStr "r ٤٢　" |}))
  ∧ parse_number_from_payload json_raises container_dots 1 (PStr "round 4b") = Return None.
Proof.
  split; [| split].
  - destruct (plain_string_event json_raises container_dots 0 " draw 7 ") as [Hyes _].
    + vm_compute. reflexivity.
    + apply Hyes. exists 55. split; vm_compute; reflexivity.
  - destruct (plain_string_event json_raises container_dots 0 "r ٤٢　") as [Hyes _].
    + vm_compute. reflexivity.
    + apply Hyes. exists 1634. split; vm_compute; reflexivity.
  - destruct (plain_string_event json_raises container_dots 0 "round 4b") as [_ Hno].
    + vm_compute. reflexivity.
    + apply Hno. intros c Hc. vm_compute in Hc. injection Hc as <-.
      vm_compute. reflexivity.
Defined.

Lemma json_string_event_witness :
  parse_number_from_payload json_raises container_dots 1 (PStr " {broken 12} ")
  = Return None.
Proof.
  destruct (json_string_event json_raises container_dots 0 " {broken 12} ") as [_ Hraise].
  - vm_compute. reflexivity.
  - apply Hraise. reflexivity.
Defined.

Lemma boolean_number_witness :
  parse_number_from_payload json_raises container_dots 1 (PDict {[ "number" := PBool true ]})
  = Return (Some {| issue := None; number := IBool true;
                    raw := PDict {[ "number" := PBool true ]} |}).
Proof.
  destruct (boolean_number json_raises container_dots 0 {[ "number" := PBool true ]}
              true (Clock 0 "")) as [Hparse _].
  - vm_compute. reflexivity.
  - rewrite Hparse. vm_compute. reflexivity.
Defined.

(** ** Termination *)

Lemma weight_pos (v : pyval) : (1 ≤ weight v)%nat.
Proof. destruct v; cbn; lia. Qed.

Lemma weight_list (l : list pyval) :
  weight (PList l) = S (foldr (λ x acc, weight x + acc)%nat 0%nat l).
Proof. reflexivity. Qed.

Lemma weight_dict (d : gmap string pyval) :
  weight (PDict d) = S (map_fold (λ _ x acc, weight x + acc)%nat 0%nat d).
Proof. reflexivity. Qed.

Lemma weight_last (l : list pyval) (x : pyval) :
  last l = Some x → (weight x < weight (PList l))%nat.
Proof.
  intros [p ->]%last_Some. rewrite weight_list, foldr_app. cbn [fold_right].
  induction p as [| y p IH]; cbn [fold_right]; [lia |].
  set (t := foldr _ _ p) in *. lia.
Qed.

Lemma weight_lookup (d : gmap string pyval) (k : string) (v : pyval) :
  d !! k = Some v → (weight v < weight (PDict d))%nat.
Proof.
  intros Hk. rewrite weight_dict.
  rewrite (map_fold_delete_L _ _ k v d); [lia | | done].
  intros; lia.
Qed.

Lemma first_collection_weight (data : pyval) (ks : list string) (x : pyval) :
  first_collection data ks = Some x → (weight x < weight data)%nat.
Proof.
  induction ks as [| k ks IH]; cbn [first_collection]; [done |].
  destruct data as [| | | | | d |]; try (cbn [safe_get]; apply IH).
  rewrite safe_get_field.
  destruct (d !! k) as [[| | | | arr | |] |] eqn:Hk; cbn [from_option id]; try apply IH.
  destruct (last arr) as [y |] eqn:Hy; [| apply IH].
  intros [= ->].
  apply weight_last in Hy. apply weight_lookup in Hk. lia.
Qed.

Lemma parse_returns_within (json_loads : string → option pyval)
    (container_str : pyval → string) :
  (∀ s v, json_loads s = Some v → (weight v ≤ String.length s)%nat) →
  ∀ (fuel : nat) (data : pyval),
    (weight data ≤ fuel)%nat →
    ∃ r, parse_number_from_payload json_loads container_str fuel data = Return r.
Proof.
  intros Hjson. induction fuel as [| fuel IH]; intros data Hw.
  - pose proof (weight_pos data). lia.
  - cbn [parse_number_from_payload].
    destruct data as [| | | str | l | d |]; try by eexists.
    + destruct (looks_like_json (strip str)); [| by destruct (search_digits_spaces_end _) as [n |]; [destruct (in_range n) |]; eexists].
      destruct (json_loads (strip str)) as [v |] eqn:Hv.
      * apply IH. apply Hjson in Hv.
        pose proof (strip_length str).
        change (weight (PStr str)) with (S (String.length str)) in Hw. lia.
      * by destruct (search_digits_spaces_end _) as [n |]; [destruct (in_range n) |]; eexists.
    + destruct (last l) as [x |] eqn:Hx; [| by eexists].
      apply IH. apply weight_last in Hx. lia.
    + destruct (scan_candidates _ _ _); [by eexists |].
      destruct (first_collection _ _) as [x |] eqn:Hx; [| by eexists].
      apply IH. apply first_collection_weight in Hx. lia.
Qed.

(** X10. The function returns for every payload: provided [json.loads]
    never decodes a text into a value larger than the text, every depth
    bound from the size of the payload on gives one and the same answer. *)
Theorem parse_returns (json_loads : string → option pyval)
    (container_str : pyval → string) (data : pyval) :
  (∀ s v, json_loads s = Some v → (weight v ≤ String.length s)%nat) →
  ∃ r, ∀ fuel : nat,
    (weight data ≤ fuel)%nat →
    parse_number_from_payload json_loads container_str fuel data = Return r.
Proof.
  intros Hjson.
  destruct (parse_returns_within json_loads container_str Hjson (weight data) data)
    as [r Hr]; [done |].
  exists r. intros fuel Hfuel. by eapply parse_fuel_le.
Qed.

Lemma parse_returns_witness :
  ∃ r, ∀ fuel : nat,
    (weight (PDict sample_history) ≤ fuel)%nat →
    parse_number_from_payload json_raises container_dots fuel (PDict sample_history)
    = Return r.
Proof.
  apply (parse_returns json_raises container_dots (PDict sample_history)).
  intros s v Hv. discriminate Hv.
Defined.

(** ** Dedup window, continued *)

Lemma del_upto_suffix (stop : Z) (l : list string) : del_upto stop l `suffix_of` l.
Proof. unfold del_upto. apply suffix_drop. Qed.

Lemma del_upto_NoDup (stop : Z) (l : list string) : NoDup l → NoDup (del_upto stop l).
Proof.
  intros Hl. eapply sublist_NoDup; [done |].
  unfold del_upto. apply sublist_drop.
Qed.

Lemma accept_NoDup (N : Z) (k : string) (seen : list string) :
  NoDup seen → NoDup (accept N k seen).2.
Proof.
  intros Hs. destruct (decide (k ∈ seen)) as [Hin | Hnin].
  - by rewrite accept_duplicate.
  - rewrite accept_fresh by done. cbn [snd].
    assert (NoDup (seen ++ [k])) as Hsk.
    { apply NoDup_app. split; [done |]. split; [| apply NoDup_singleton].
      intros x Hx ->%list_elem_of_singleton. done. }
    destruct (N <? _); [by apply del_upto_NoDup | done].
Qed.

Lemma accept_all_NoDup (N : Z) (ks seen : list string) :
  NoDup seen → NoDup (accept_all N ks seen).
Proof.
  revert seen. induction ks as [| k ks IH]; intros seen Hs; cbn; [done |].
  apply IH. by apply accept_NoDup.
Qed.

(** X11. The window never holds a key twice: every operation preserves
    the absence of duplicates, so it holds after any run from the empty
    window, for any capacity; the same goes for [handle_result]. *)
Theorem window_has_no_duplicates (N : Z) :
  (∀ ks : list string, NoDup (accept_all N ks []))
  ∧ (∀ (k : string) (seen : list string), NoDup seen → NoDup (accept N k seen).2)
  ∧ (∀ (cfg : config) (clk : clock) (ev : event) (seen : list string),
      NoDup seen → NoDup (handle_result cfg clk ev seen).2).
Proof.
  split; [| split].
  - intros ks. apply accept_all_NoDup. constructor.
  - intros k seen. apply accept_NoDup.
  - intros cfg clk ev seen Hs.
    destruct (handle_result_accept cfg clk ev seen) as [-> _].
    by apply accept_NoDup.
Qed.

Lemma window_has_no_duplicates_witness :
  NoDup (accept 2 "c" ["a"; "b"]).2.
Proof.
  destruct (window_has_no_duplicates 2) as (_ & Hstep & _).
  apply Hstep. compute_done.
Defined.

(** X12. Whatever the capacity, a new key goes to the end and eviction
    only removes keys from the front: the window after a new key is a
    suffix of the old window followed by the key. *)
Theorem eviction_from_front (N : Z) (k : string) (seen : list string) :
  k ∉ seen →
  (accept N k seen).1 = true
  ∧ (accept N k seen).2 `suffix_of` (seen ++ [k]).
Proof.
  intros Hk. rewrite accept_fresh by done. cbn [fst snd]. split; [done |].
  destruct (N <? _); [apply del_upto_suffix | done].
Qed.

Lemma eviction_from_front_witness :
  (accept 2 "c" ["a"; "b"]).2 `suffix_of` (["a"; "b"] ++ ["c"]).
Proof.
  apply (eviction_from_front 2 "c" ["a"; "b"]). compute_done.
Defined.

Lemma accept_all_app (N : Z) (ks1 ks2 seen : list string) :
  accept_all N (ks1 ++ ks2) seen = accept_all N ks2 (accept_all N ks1 seen).
Proof. unfold accept_all. apply fold_left_app. Qed.

Lemma accept_zero (k : string) (seen : list string) :
  k ∉ seen → accept 0 k seen = (true, seen ++ [k]).
Proof.
  intros Hk. rewrite accept_fresh by done.
  destruct (Z.ltb_spec 0 (Z.of_nat (length (seen ++ [k])))) as [_ | Hge]; [| done].
  unfold del_upto, slice_index. cbn. by rewrite Z.min_l by lia.
Qed.

Lemma accept_negative (N : Z) (k : string) :
  N < 0 → accept N k [] = (true, []).
Proof.
  intros HN. rewrite accept_fresh by apply not_elem_of_nil. cbn [app length].
  destruct (Z.ltb_spec N (Z.of_nat 1)) as [_ | ?]; [| lia].
  unfold del_upto, slice_index. cbn [length].
  destruct (Z.ltb_spec (- N) 0); [lia |].
  rewrite Z.min_r by lia. done.
Qed.

(** X13. A capacity that is not positive does not bound the window.  With
    capacity 0 nothing is ever evicted (the slice [[:-0]] is empty): after
    distinct keys the window holds all of them.  With a negative capacity
    the window started empty stays empty, and every key is accepted every
    time. *)
Theorem nonpositive_capacity :
  (∀ ks : list string, NoDup ks → accept_all 0 ks [] = ks)
  ∧ (∀ (N : Z) (ks : list string), N < 0 → accept_all N ks [] = [])
  ∧ (∀ (N : Z) (ks : list string) (k : string),
      N < 0 → accept N k (accept_all N ks []) = (true, [])).
Proof.
  split; [| split].
  - intros ks. induction ks as [| k ks IH] using rev_ind; [done |].
    intros [Hks [Hk _]]%NoDup_app. rewrite accept_all_app. rewrite IH by done.
    cbn. rewrite accept_zero; [done |].
    intros Hin. apply (Hk k Hin). by apply list_elem_of_singleton.
  - intros N ks HN. induction ks as [| k ks IH] using rev_ind; [done |].
    rewrite accept_all_app, IH. cbn. by rewrite accept_negative.
  - intros N ks k HN.
    assert (accept_all N ks [] = []) as ->.
    { induction ks as [| k' ks IH] using rev_ind; [done |].
      rewrite accept_all_app, IH. cbn. by rewrite accept_negative. }
    by apply accept_negative.
Qed.

Lemma nonpositive_capacity_witness :
  accept_all 0 ["a"; "b"; "c"] [] = ["a"; "b"; "c"]
  ∧ accept (-1) "a" (accept_all (-1) ["a"; "a"] []) = (true, []).
Proof.
  destruct nonpositive_capacity as (Hzero & _ & Hneg).
  split.
  - apply Hzero. compute_done.
  - apply Hneg. lia.
Defined.

Lemma accept_holds_key (N : Z) (k : string) (seen : list string) :
  1 ≤ N → k ∈ (accept N k seen).2.
Proof.
  intros HN. destruct (decide (k ∈ seen)) as [Hin | Hnin].
  - by rewrite accept_duplicate.
  - rewrite accept_fresh_window by done.
    rewrite drop_app_le by lia.
    apply elem_of_app. right. by apply list_elem_of_singleton.
Qed.

Lemma resubmission_of_event (cfg : config) (clk : clock) (ev : event) (seen : list string) :
  1 ≤ DEDUP_WINDOW cfg →
  handle_result cfg clk ev (handle_result cfg clk ev seen).2
  = (None, (handle_result cfg clk ev seen).2).
Proof.
  intros HN. destruct (handle_result_accept cfg clk ev seen) as [-> _].
  unfold handle_result at 1.
  rewrite accept_duplicate by by apply accept_holds_key. done.
Qed.

(** X14. With a capacity of at least one, a key is in the window right
    after it was presented, so presenting it again at once is rejected and
    changes nothing; for [handle_result], a second event with the same
    dedup key emits nothing. *)
Theorem resubmission_rejected (N : Z) (k : string) (seen : list string) :
  1 ≤ N →
  accept N k (accept N k seen).2 = (false, (accept N k seen).2)
  ∧ (∀ (cfg : config) (clk clk' : clock) (ev ev' : event),
      DEDUP_WINDOW cfg = N →
      dedup_key (issue ev) (number ev) clk = k →
      dedup_key (issue ev') (number ev') clk' = k →
      handle_result cfg clk' ev' (handle_result cfg clk ev seen).2
      = (None, (handle_result cfg clk ev seen).2)).
Proof.
  intros HN. split.
  - apply accept_duplicate. by apply accept_holds_key.
  - intros cfg clk clk' ev ev' <- Hk Hk'.
    destruct (handle_result_accept cfg clk ev seen) as [-> _]. rewrite Hk.
    unfold handle_result at 1. rewrite Hk'.
    rewrite accept_duplicate by by apply accept_holds_key. done.
Qed.

Lemma resubmission_rejected_witness :
  accept 2 "c" (accept 2 "c" ["a"; "b"]).2 = (false, (accept 2 "c" ["a"; "b"]).2).
Proof. apply (resubmission_rejected 2 "c" ["a"; "b"]). lia. Defined.

(** X15. A non-empty issue is the dedup key, whatever the number and the
    time.  Without an issue the key is made of the number and the minute:
    for one number, two readings of the clock give the same key exactly
    when they fall in the same minute. *)
Theorem dedup_key_cases (n : pyint) (clk clk' : clock) :
  (∀ s : string, s ≠ "" → dedup_key (Some s) n clk = s)
  ∧ dedup_key (Some "") n clk = dedup_key None n clk
  ∧ (dedup_key None n clk = dedup_key None n clk'
     ↔ unix_seconds clk / 60 = unix_seconds clk' / 60).
Proof.
  split; [| split].
  - intros s Hs. unfold dedup_key. by rewrite bool_decide_false.
  - reflexivity.
  - unfold dedup_key. split.
    + intros H. apply (inj (String.app _)) in H. apply (inj (String.app _)) in H.
      by apply (inj pretty) in H.
    + by intros ->.
Qed.

Lemma dedup_key_cases_witness :
  dedup_key (Some "20240101-100") (IInt 3) (Clock 0 "") = "20240101-100"
  ∧ dedup_key None (IInt 3) (Clock 125 "") = dedup_key None (IInt 3) (Clock 179 "").
Proof.
  destruct (dedup_key_cases (IInt 3) (Clock 125 "") (Clock 179 "")) as (_ & _ & Hmin).
  destruct (dedup_key_cases (IInt 3) (Clock 0 "") (Clock 0 "")) as (Hissue & _).
  split.
  - apply Hissue. discriminate.
  - apply Hmin. reflexivity.
Defined.

Lemma accept_fresh_window_nat (N : Z) (k : string) (seen : list string) :
  1 ≤ N → k ∉ seen →
  (accept N k seen).2 = drop (length seen + 1 - Z.to_nat N) (seen ++ [k]).
Proof.
  intros HN Hk. rewrite accept_fresh_window by done. f_equal. lia.
Qed.

Lemma accept_all_fresh (N : Z) (ks seen : list string) :
  1 ≤ N → NoDup ks → (∀ x, x ∈ ks → x ∉ seen) →
  (length seen ≤ Z.to_nat N)%nat →
  accept_all N ks seen = drop (length seen + length ks - Z.to_nat N) (seen ++ ks).
Proof.
  intros HN. revert seen.
  induction ks as [| k ks IH]; intros seen Hnd Hfresh Hlen.
  - cbn. rewrite app_nil_r. by replace (_ - _)%nat with 0%nat by lia.
  - apply NoDup_cons in Hnd as [Hk Hnd].
    change (accept_all N (k :: ks) seen) with (accept_all N ks (accept N k seen).2).
    rewrite accept_fresh_window_nat by (try done; apply Hfresh; by left).
    set (a := (length seen + 1 - Z.to_nat N)%nat).
    assert (length (drop a (seen ++ [k])) = (length seen + 1 - a)%nat) as Hw
      by (rewrite length_drop, length_app; cbn; lia).
    rewrite IH; [| done | | lia].
    + rewrite Hw. rewrite <- drop_app_le by (rewrite length_app; cbn; lia).
      rewrite <- app_assoc. cbn [app]. rewrite drop_drop. f_equal. cbn [length]. lia.
    + intros x Hx Hin.
      assert (x ∈ seen ++ [k]) as Hin'
        by (eapply elem_of_suffix; [done | apply suffix_drop]).
      apply elem_of_app in Hin' as [Hs | ->%list_elem_of_singleton]; [| done].
      apply (Hfresh x); [by right | done].
Qed.

(** X22. Keys age out.  With a capacity [N] of at least one and a window
    within it, presenting distinct keys that are not in the window leaves
    the last [N] keys of the old window followed by the new keys; so after
    [N] or more of them every key of the old window is forgotten and would
    be accepted as new. *)
Theorem keys_age_out (N : Z) (ks seen : list string) :
  1 ≤ N → NoDup ks → (∀ x, x ∈ ks → x ∉ seen) →
  Z.of_nat (length seen) ≤ N →
  accept_all N ks seen = drop (length seen + length ks - Z.to_nat N) (seen ++ ks)
  ∧ (N ≤ Z.of_nat (length ks) →
     ∀ x, x ∈ seen → (accept N x (accept_all N ks seen)).1 = true).
Proof.
  intros HN Hnd Hfresh Hlen.
  assert (accept_all N ks seen
          = drop (length seen + length ks - Z.to_nat N) (seen ++ ks)) as Hrun
    by (apply accept_all_fresh; [done.. | lia]).
  split; [done |].
  intros Hmany x Hx. rewrite accept_verdict. apply bool_decide_eq_true.
  rewrite Hrun, drop_app_ge by lia. intros Hin.
  apply (Hfresh x); [| done].
  eapply elem_of_suffix; [done | apply suffix_drop].
Qed.

Lemma keys_age_out_witness :
  accept_all 2 ["c"; "d"] ["a"; "b"] = ["c"; "d"]
  ∧ (accept 2 "a" (accept_all 2 ["c"; "d"] ["a"; "b"])).1 = true.
Proof.
  destruct (keys_age_out 2 ["c"; "d"] ["a"; "b"]) as [Hrun Hold];
    [lia | compute_done | | cbn; lia |].
  - intros x Hx. apply elem_of_cons in Hx as [-> | Hx]; [compute_done |].
    apply list_elem_of_singleton in Hx as ->. compute_done.
  - split; [exact Hrun |]. apply Hold; [cbn; lia | compute_done].
Defined.

(** ** Classifier and lookups *)

(** X16. The confidence of a signal is 55, 60 or 65, whatever the number
    and the threshold; it is a percentage. *)
Theorem confidence_values (cfg : config) (n : pyint) :
  confidence (make_signal cfg n) ∈ [55; 60; 65]
  ∧ 0 ≤ confidence (make_signal cfg n) ≤ 100.
Proof.
  unfold make_signal, confidence_of; cbn [confidence].
  destruct (in_pair (int_val n) 0 9),
    (in_pair (int_val n) (BIG_THRESHOLD cfg) (BIG_THRESHOLD cfg - 1));
    (split; [repeat constructor | lia]).
Qed.

Lemma safe_get_atom (v : pyval) (k : string) (ks : list string) (default : pyval) :
  (∀ d, v ≠ PDict d) → safe_get v (k :: ks) default = default.
Proof. intros Hv. destruct v; try done. by destruct (Hv d). Qed.

(** X17. Paths compose: reading a path in two steps, the first with
    default [None], gives what reading it at once gives, as long as the
    second step is not empty.  A key that is bound reads the value bound
    to it, and a key bound to [None] reads like a missing key. *)
Theorem safe_get_compose (cur : pyval) (ks1 ks2 : list string) (default : pyval) :
  ks2 ≠ [] →
  safe_get cur (ks1 ++ ks2) default = safe_get (safe_get cur ks1 PNone) ks2 default
  ∧ (∀ (m : gmap string pyval) (k : string) (v : pyval),
      safe_get (PDict (<[ k := v ]> m)) (k :: ks2) default = safe_get v ks2 default)
  ∧ (∀ (m : gmap string pyval) (k : string),
      safe_get (PDict (<[ k := PNone ]> m)) [k] PNone
      = safe_get (PDict (delete k m)) [k] PNone).
Proof.
  intros Hks2. split; [| split].
  - revert cur. induction ks1 as [| k ks1 IH]; intros cur; [done |].
    destruct ks2 as [| k2 ks2]; [done |].
    change ((k :: ks1) ++ k2 :: ks2) with (k :: (ks1 ++ k2 :: ks2)).
    destruct cur as [| | | | | m |]; try done.
    cbn [safe_get]. destruct (m !! k) as [v |]; [apply IH | done].
  - intros m k v. cbn [safe_get]. by rewrite lookup_insert_eq.
  - intros m k. cbn [safe_get]. by rewrite lookup_insert_eq, lookup_delete_eq.
Qed.

Lemma safe_get_compose_witness :
  safe_get (PDict {[ "lottery" := PDict {[ "number" := PInt 4 ]} ]})
    (["lottery"] ++ ["number"]) PNone
  = safe_get (safe_get (PDict {[ "lottery" := PDict {[ "number" := PInt 4 ]} ]})
                ["lottery"] PNone) ["number"] PNone.
Proof.
  apply (safe_get_compose (PDict {[ "lottery" := PDict {[ "number" := PInt 4 ]} ]})
           ["lottery"] ["number"] PNone).
  discriminate.
Defined.

(** ** Strings inside mappings *)

(** X21. A text that yields a number as a bare string yields the same
    number under the key number of a mapping; the mapping then supplies
    the issue and is the raw value. *)
Theorem string_under_number_key (json_loads : string → option pyval)
    (container_str : pyval → string) (fuel fuel' : nat) (str : string)
    (d : gmap string pyval) (ev : event) :
  looks_like_json (strip str) = false →
  parse_number_from_payload json_loads container_str (S fuel) (PStr str)
    = Return (Some ev) →
  d !! "number" = Some (PStr str) →
  parse_number_from_payload json_loads container_str (S fuel') (PDict d)
    = Return (Some {| issue := resolve_issue container_str (PDict d);
                      number := number ev; raw := PDict d |}).
Proof.
  intros Hj Hstr Hd. cbn [parse_number_from_payload] in Hstr. rewrite Hj in Hstr.
  unfold search_digits_spaces_end in Hstr.
  rewrite re_search_agree in Hstr by apply strip_clean.
  destruct (re_search _ _) as [g |] eqn:Hg; [| done].
  cbn [fmap option_fmap option_map] in Hstr.
  destruct (in_range (int_of_digits g)); [| done].
  injection Hstr as <-. cbn [number parse_number_from_payload].
  unfold candidates. rewrite safe_get_field, Hd. cbn [from_option id].
  rewrite (scan_candidates_str container_str _ str _ (int_of_digits g)); [done |].
  unfold search_digits_end. by rewrite Hg.
Qed.

Lemma string_under_number_key_witness :
  parse_number_from_payload json_raises container_dots 1
    (PDict {[ "number" := PStr "no. 42" ]})
  = Return (Some {| issue := resolve_issue container_dots (PDict {[ "number" := PStr "no. 42" ]});
                    number := IInt 42;
                    raw := PDict {[ "number" := PStr "no. 42" ]} |}).
Proof.
  apply (string_under_number_key json_raises container_dots 0 0 "no. 42"
           {[ "number" := PStr "no. 42" ]}
           {| issue := None; number := IInt 42; raw := PStr "no. 42" |});
    vm_compute; reflexivity.
Defined.

(** ** The message handler *)

Section Handler.

Variable json_loads : string → option pyval.
Variable container_str : pyval → string.

#[local] Abbreviation parse := (parse_number_from_payload json_loads container_str).
#[local] Abbreviation handle := (on_message json_loads container_str).

Lemma handle_result_silent (cfg : config) (clk : clock) (ev : event)
    (seen w : list string) :
  handle_result cfg clk ev seen = (None, w) → w = seen.
Proof.
  unfold handle_result.
  destruct (decide (dedup_key (issue ev) (number ev) clk ∈ seen)) as [Hin | Hnin].
  - rewrite accept_duplicate by done. by intros [= <-].
  - rewrite accept_fresh by done. by destruct (_ <? _).
Qed.

(** X18. Handling a message keeps the window free of duplicates and, for
    a capacity of at least one, within the capacity; a message that gives
    no report (no event found, or a duplicate) leaves the window as it
    was. *)
Theorem on_message_window (fuel : nat) (cfg : config) (clk : clock) (data : pyval)
    (seen w : list string) (out : option payload) :
  handle fuel cfg clk data seen = Some (out, w) →
  (NoDup seen → NoDup w)
  ∧ (1 ≤ DEDUP_WINDOW cfg → Z.of_nat (length seen) ≤ DEDUP_WINDOW cfg →
     Z.of_nat (length w) ≤ DEDUP_WINDOW cfg)
  ∧ (out = None → w = seen).
Proof.
  unfold on_message.
  destruct (parse fuel data) as [| [ev |]]; [done | | by intros [= <- <-]].
  intros [= Hh].
  assert (w = (handle_result cfg clk ev seen).2) as Hw by by rewrite Hh.
  destruct (handle_result_accept cfg clk ev seen) as [Hacc _].
  split; [| split].
  - intros Hs. rewrite Hw, Hacc. by apply accept_NoDup.
  - intros HN Hlen. rewrite Hw, Hacc. by apply accept_length.
  - intros ->. by eapply handle_result_silent.
Qed.

(** X19. Every report the handler emits is about an event found in the
    message: it carries the issue of the event and the signal of its
    number, this number lies in [0,99], and the dedup key of the event was
    not in the window before. *)
Theorem on_message_report (fuel : nat) (cfg : config) (clk : clock) (data : pyval)
    (seen w : list string) (p : payload) :
  handle fuel cfg clk data seen = Some (Some p, w) →
  ∃ ev, parse fuel data = Return (Some ev)
        ∧ p_issue p = issue ev
        ∧ p_signal p = make_signal cfg (number ev)
        ∧ 0 ≤ int_val (meta_num (p_signal p)) ≤ 99
        ∧ dedup_key (issue ev) (number ev) clk ∉ seen.
Proof.
  unfold on_message.
  destruct (parse fuel data) as [| [ev |]] eqn:Hp; [done | | done].
  intros [= Hh]. exists ev. split; [done |].
  unfold handle_result in Hh.
  destruct (decide (dedup_key (issue ev) (number ev) clk ∈ seen)) as [Hin | Hnin].
  - by rewrite accept_duplicate in Hh.
  - rewrite accept_fresh in Hh by done.
    assert (p = {| p_symbol := SYMBOL cfg; p_timeframe := TIMEFRAME cfg;
                   p_game := GAME cfg; p_issue := issue ev;
                   p_created_at := iso clk;
                   p_signal := make_signal cfg (number ev) |}) as ->
      by (destruct (_ <? _); by injection Hh as <- _).
    repeat split; try done; cbn; by eapply parse_in_range.
Qed.

(** X20. With a capacity of at least one, a message handled a second time
    with the same reading of the clock gives no report and leaves the
    window as it is. *)
Theorem on_message_again (fuel : nat) (cfg : config) (clk : clock) (data : pyval)
    (seen w : list string) (out : option payload) :
  1 ≤ DEDUP_WINDOW cfg →
  handle fuel cfg clk data seen = Some (out, w) →
  handle fuel cfg clk data w = Some (None, w).
Proof.
  intros HN. unfold on_message.
  destruct (parse fuel data) as [| [ev |]]; [done | | by intros [= _ <-]].
  intros [= Hh]. f_equal.
  assert (w = (handle_result cfg clk ev seen).2) as -> by by rewrite Hh.
  by apply (resubmission_of_event cfg clk ev seen).
Qed.

End Handler.

Lemma on_message_window_witness :
  NoDup ["a"; "3-2"]
  ∧ Z.of_nat (length ["a"; "3-2"]) ≤ 2
  ∧ NoDup ["b"; "3-2"]
  ∧ Z.of_nat (length ["b"; "3-2"]) ≤ 2.
Proof.
  destruct (on_message_window json_raises container_dots 1
              (Config 5 2 "WinGo" "30s" "WinGo_30S") (Clock 125 "")
              (PStr "draw 3") ["a"] ["a"; "3-2"]
              (Some {| p_symbol := "WinGo"; p_timeframe := "30s"; p_game := "WinGo_30S";
                       p_issue := None; p_created_at := "";
                       p_signal := make_signal (Config 5 2 "WinGo" "30s" "WinGo_30S") (IInt 3) |}))
    as (Hnd & Hlen & _); [vm_compute; reflexivity |].
  destruct (on_message_window json_raises container_dots 1
              (Config 5 2 "WinGo" "30s" "WinGo_30S") (Clock 125 "")
              (PStr "draw 3") ["a"; "b"] ["b"; "3-2"]
              (Some {| p_symbol := "WinGo"; p_timeframe := "30s"; p_game := "WinGo_30S";
                       p_issue := None; p_created_at := "";
                       p_signal := make_signal (Config 5 2 "WinGo" "30s" "WinGo_30S") (IInt 3) |}))
    as (Hnd' & Hlen' & _); [vm_compute; reflexivity |].
  split; [| split; [| split]].
  - apply Hnd. compute_done.
  - apply Hlen; cbn; lia.
  - apply Hnd'. compute_done.
  - apply Hlen'; cbn; lia.
Defined.

Lemma on_message_report_witness :
  ∃ ev, parse_number_from_payload json_raises container_dots 1 (PStr "draw 3")
        = Return (Some ev)
        ∧ None = issue ev
        ∧ make_signal default_config (IInt 3) = make_signal default_config (number ev)
        ∧ 0 ≤ int_val (meta_num (make_signal default_config (IInt 3))) ≤ 99
        ∧ dedup_key (issue ev) (number ev) (Clock 125 "2024-01-01T00:02:05+00:00")
          ∉ ["a"].
Proof.
  apply (on_message_report json_raises container_dots 1 default_config
           (Clock 125 "2024-01-01T00:02:05+00:00") (PStr "draw 3") ["a"] ["a"; "3-2"]
           {| p_symbol := "WinGo"; p_timeframe := "30s"; p_game := "WinGo_30S";
              p_issue := None; p_created_at := "2024-01-01T00:02:05+00:00";
              p_signal := make_signal default_config (IInt 3) |}).
  vm_compute. reflexivity.
Defined.

Lemma on_message_again_witness :
  on_message json_raises container_dots 1 default_config (Clock 125 "")
    (PStr "draw 3") ["a"; "3-2"]
  = Some (None, ["a"; "3-2"]).
Proof.
  apply (on_message_again json_raises container_dots 1 default_config (Clock 125 "")
           (PStr "draw 3") ["a"] ["a"; "3-2"]
           (Some {| p_symbol := "WinGo"; p_timeframe := "30s"; p_game := "WinGo_30S";
                    p_issue := None; p_created_at := "";
                    p_signal := make_signal default_config (IInt 3) |})).
  - cbn. lia.
  - vm_compute. reflexivity.
Defined.
